(** * multi-cam.py: loss composition, novel-view sampling and texture baking

    A shallow embedding of the [GUI] class of [multi-cam.py]: the training
    step ([prepare_train], [train_step]) and the texture part of
    [save_model].

    Conventions.
    - Python floats and tensor entries are exact rationals ([Q]); equalities
      between computed losses are stated up to [==].
    - Python exceptions are the constructors of [exn]; a method that may
      raise returns [res A].
    - The renderer, the guidance models, the optimizer and the camera
      algebra live in other modules of the repository; they are the
      fields of the class [Backend], over which the object is generic.
    - Draws of [np.random] are read from an explicit entropy argument. *)

From Stdlib Require Import String ZArith QArith List Bool Lia Arith Lqa.
Import ListNotations.

Local Open Scope Z_scope.

(** ** Exceptions *)

Inductive exn : Set :=
| IndexError
| ZeroDivisionError
| ValueError
| RuntimeError
| AttributeError
| UnboundLocalError
| CvError.

Inductive res (A : Type) : Type :=
| OK (a : A)
| Raise (e : exn).

Arguments OK {A} a.
Arguments Raise {A} e.

Definition bind {A B : Type} (c : res A) (k : A -> res B) : res B :=
  match c with
  | OK a => k a
  | Raise e => Raise e
  end.

Declare Scope res_scope.
Delimit Scope res_scope with res.
Notation "x <- c ;; k" := (bind c (fun x => k))
  (at level 61, c at next level, right associativity) : res_scope.
Notation "' p <- c ;; k" := (bind c (fun x => match x with p => k end))
  (at level 61, p pattern, c at next level, right associativity) : res_scope.
Local Open Scope res_scope.

Definition is_ok {A : Type} (c : res A) : bool :=
  match c with OK _ => true | Raise _ => false end.

(** [xs[i]] on a Python list. *)
Definition py_index {A : Type} (xs : list A) (i : nat) : res A :=
  match nth_error xs i with
  | Some x => OK x
  | None => Raise IndexError
  end.

(** A [for] loop whose body may raise. *)
Fixpoint foldM {A B : Type} (f : A -> B -> res A) (xs : list B) (a : A)
  : res A :=
  match xs with
  | [] => OK a
  | x :: xs' => a' <- f a x ;; foldM f xs' a'
  end.

Fixpoint mapM {A B : Type} (f : A -> res B) (xs : list A) : res (list B) :=
  match xs with
  | [] => OK []
  | x :: xs' => y <- f x ;; ys <- mapM f xs' ;; OK (y :: ys)
  end.

(** ** Scalars *)

Definition Qltb (x y : Q) : bool := negb (Qle_bool y x).

(** [min(a, b)] of Python: the first argument unless the second is
    strictly smaller. *)
Definition py_min (a b : Q) : Q := if Qltb b a then b else a.

(** [torch.max(a, b)] on one entry. *)
Definition q_max (a b : Q) : Q := if Qltb a b then b else a.

(** [step_ratio = min(1, self.step / self.opt.iters)]. *)
Definition step_ratio (step iters : Z) : res Q :=
  if iters =? 0 then Raise ZeroDivisionError
  else OK (py_min 1 (inject_Z step / inject_Z iters)).

(** ** Novel-view sampling (train_step, lines 399-418) *)

(** [render_resolution = 128 if step_ratio < 0.3 else
                         (256 if step_ratio < 0.6 else 512)] *)
Definition render_resolution (r : Q) : Z :=
  if Qltb r (3 # 10) then 128
  else if Qltb r (6 # 10) then 256
  else 512.

(** [min_ver = max(min(-30, -30 - elevation), -80 - elevation)] *)
Definition min_ver (elevation : Z) : Z :=
  Z.max (Z.min (-30) (-30 - elevation)) (-80 - elevation).

(** [max_ver = min(max(30, 30 - elevation), 80 - elevation)] *)
Definition max_ver (elevation : Z) : Z :=
  Z.min (Z.max 30 (30 - elevation)) (80 - elevation).

(** [np.random.randint(low, high)]: an integer of the half-open interval
    from [low] (inclusive) to [high] (exclusive), here obtained from the
    entropy [u]; [ValueError] when the interval is empty. *)
Definition randint (low high : Z) (u : Z) : res Z :=
  if low <? high then OK (low + u mod (high - low))
  else Raise ValueError.

(** The elevation offsets and absolute elevations one draw can produce. *)
Definition attainable_ver (elevation ver : Z) : Prop :=
  exists u, randint (min_ver elevation) (max_ver elevation) u = OK ver.

Definition attainable_elevation (elevation abs : Z) : Prop :=
  exists ver, attainable_ver elevation ver /\ abs = elevation + ver.

(** ** Texture atlas (save_model, mode 'geo+tex') *)

(** A two-dimensional array, row after row. *)
Definition Grid (A : Type) : Type := list (list A).

Definition tabulate {A : Type} (h w : nat) (f : nat -> nat -> A) : Grid A :=
  map (fun i => map (fun j => f i j) (seq 0 w)) (seq 0 h).

Definition grid_get {A : Type} (d : A) (g : Grid A) (i j : nat) : A :=
  nth j (nth i g []) d.

Fixpoint list_set {A : Type} (l : list A) (n : nat) (v : A) : list A :=
  match l, n with
  | [], _ => []
  | _ :: t, O => v :: t
  | x :: t, S n' => x :: list_set t n' v
  end.

(** [g[i, j] = v] *)
Definition grid_set {A : Type} (g : Grid A) (i j : nat) (v : A) : Grid A :=
  list_set g i (list_set (nth i g []) j v).

(** The shape of an array of [h] rows and [w] columns, and the
    coordinates inside it. *)
Definition shape {A : Type} (h w : nat) (g : Grid A) : Prop :=
  List.length g = h /\ forall i, (i < h)%nat -> List.length (nth i g []) = w.

Definition inside (h w : nat) (c : nat * nat) : Prop :=
  (fst c < h)%nat /\ (snd c < w)%nat.

(** A mask that is set only inside the array. *)
Definition bounded (h w : nat) (m : Grid bool) : Prop :=
  forall i j, grid_get false m i j = true -> (i < h)%nat /\ (j < w)%nat.

Definition Color : Type := (Q * Q * Q)%type.

Definition black : Color := (0, 0, 0)%Q.

Definition color_add (a b : Color) : Color :=
  let '(r1, g1, b1) := a in
  let '(r2, g2, b2) := b in
  (r1 + r2, g1 + g2, b1 + b2)%Q.

Definition color_div (a : Color) (c : Q) : Color :=
  let '(r1, g1, b1) := a in (r1 / c, g1 / c, b1 / c)%Q.

Definition getb (m : Grid bool) (i j : nat) : bool := grid_get false m i j.
Definition getq (m : Grid Q) (i j : nat) : Q := grid_get 0%Q m i j.
Definition getc (m : Grid Color) (i j : nat) : Color := grid_get black m i j.

(** The atlas under construction: [albedo] and [cnt]. *)
Definition Atlas : Type := (Grid Color * Grid Q)%type.

(** [albedo = torch.zeros((h, w, 3))], [cnt = torch.zeros((h, w, 1))] *)
Definition atlas_zeros (h w : nat) : Atlas :=
  (tabulate h w (fun _ _ => black), tabulate h w (fun _ _ => 0%Q)).

(** The coverage viewpoints:
    [vers = [0] * 8 + [-45] * 8 + [45] * 8 + [-89.9, 89.9]]
    [hors = [0, 45, -45, 90, -90, 135, -135, 180] * 3 + [0, 0]] *)
Definition vers : list Q :=
  (repeat 0 8 ++ repeat (-45 # 1) 8 ++ repeat (45 # 1) 8
   ++ [-899 # 10; 899 # 10])%Q.

Definition hors : list Q :=
  let ring := [0; 45 # 1; -45 # 1; 90 # 1; -90 # 1; 135 # 1; -135 # 1;
               180 # 1]%Q in
  (ring ++ ring ++ ring ++ [0; 0])%Q.

Definition viewpoints : list (Q * Q) := combine vers hors.

(** One pass of the loop over the viewpoints, lines 772-776, on the
    [cur_albedo], [cur_cnt] that [mipmap_linear_grid_put_2d] returned for
    the view:
    [mask = cnt.squeeze(-1) < 0.1]
    [albedo[mask] += cur_albedo[mask]]
    [cnt[mask] += cur_cnt[mask]] *)
Definition accumulate (h w : nat) (acc cur : Atlas) : Atlas :=
  let '(albedo, cnt) := acc in
  let '(cur_albedo, cur_cnt) := cur in
  let mask := tabulate h w (fun i j => Qltb (getq cnt i j) (1 # 10)) in
  (tabulate h w (fun i j =>
     if getb mask i j then color_add (getc albedo i j) (getc cur_albedo i j)
     else getc albedo i j),
   tabulate h w (fun i j =>
     if getb mask i j then (getq cnt i j + getq cur_cnt i j)%Q
     else getq cnt i j)).

Section Bake.
(** What rendering, rasterising and [mipmap_linear_grid_put_2d] give for
    the viewpoint [(ver, hor)]: the pair [cur_albedo], [cur_cnt]. *)
Variable project : Q * Q -> Atlas.

Definition bake_from (h w : nat) (acc : Atlas) (views : list (Q * Q))
  : Atlas :=
  fold_left (fun a v => accumulate h w a (project v)) views acc.

Definition bake (h w : nat) (views : list (Q * Q)) : Atlas :=
  bake_from h w (atlas_zeros h w) views.
End Bake.

(** [mask = cnt.squeeze(-1) > 0] *)
Definition valid_mask (h w : nat) (cnt : Grid Q) : Grid bool :=
  tabulate h w (fun i j => Qltb 0 (getq cnt i j)).

(** [albedo[mask] = albedo[mask] / cnt[mask].repeat(1, 3)] *)
Definition normalize (h w : nat) (albedo : Grid Color) (cnt : Grid Q)
  : Grid Color :=
  let mask := valid_mask h w cnt in
  tabulate h w (fun i j =>
    if getb mask i j then color_div (getc albedo i j) (getq cnt i j)
    else getc albedo i j).

(** *** Morphology ([scipy.ndimage], cross-shaped structuring element,
    everything outside the array counts as background) *)

Definition above (m : Grid bool) (i j : nat) : bool :=
  match i with O => false | S i' => getb m i' j end.

Definition left_of (m : Grid bool) (i j : nat) : bool :=
  match j with O => false | S j' => getb m i j' end.

Definition dilate1 (h w : nat) (m : Grid bool) : Grid bool :=
  tabulate h w (fun i j =>
    getb m i j || above m i j || getb m (S i) j
    || left_of m i j || getb m i (S j)).

Definition erode1 (h w : nat) (m : Grid bool) : Grid bool :=
  tabulate h w (fun i j =>
    getb m i j && above m i j && getb m (S i) j
    && left_of m i j && getb m i (S j)).

Definition binary_dilation (h w : nat) (m : Grid bool) (iterations : nat)
  : Grid bool :=
  Nat.iter iterations (dilate1 h w) m.

Definition binary_erosion (h w : nat) (m : Grid bool) (iterations : nat)
  : Grid bool :=
  Nat.iter iterations (erode1 h w) m.

(** [inpaint_region = binary_dilation(mask, iterations=32)]
    [inpaint_region[mask] = 0] *)
Definition inpaint_region (h w : nat) (mask : Grid bool) : Grid bool :=
  let dil := binary_dilation h w mask 32 in
  tabulate h w (fun i j => if getb mask i j then false else getb dil i j).

(** [search_region = mask.copy()]
    [not_search_region = binary_erosion(search_region, iterations=3)]
    [search_region[not_search_region] = 0] *)
Definition search_region (h w : nat) (mask : Grid bool) : Grid bool :=
  let not_search_region := binary_erosion h w mask 3 in
  tabulate h w (fun i j =>
    if getb not_search_region i j then false else getb mask i j).

(** [np.stack(np.nonzero(m), axis=-1)]: the coordinates of the set
    entries, in row-major order. *)
Definition nonzero (h w : nat) (m : Grid bool) : list (nat * nat) :=
  filter (fun c => getb m (fst c) (snd c)) (list_prod (seq 0 h) (seq 0 w)).

(** Squared Euclidean distance between two texels. *)
Definition dist2 (p q : nat * nat) : Z :=
  (Z.of_nat (fst p) - Z.of_nat (fst q)) * (Z.of_nat (fst p) - Z.of_nat (fst q))
  + (Z.of_nat (snd p) - Z.of_nat (snd q)) * (Z.of_nat (snd p) - Z.of_nat (snd q)).

(** The contract of an exact one-nearest-neighbour query
    ([NearestNeighbors(n_neighbors=1, algorithm="kd_tree")]): on fitted
    points [pts] and a query [q], the index returned designates a fitted
    point at least as close to [q] as every other one.  Which of several
    equidistant points wins is left open. *)
Definition exact_knn (kneighbors : list (nat * nat) -> nat * nat -> nat)
  : Prop :=
  forall pts q, pts <> [] ->
    exists p, nth_error pts (kneighbors pts q) = Some p /\
              forall p', In p' pts -> dist2 q p <= dist2 q p'.

(** A reference query: scan the points, keep the first closest one. *)
Fixpoint nearest_from (q : nat * nat) (pts : list (nat * nat))
  (k best : nat) (bd : Z) : nat :=
  match pts with
  | [] => best
  | p :: pts' =>
      if dist2 q p <? bd then nearest_from q pts' (S k) k (dist2 q p)
      else nearest_from q pts' (S k) best bd
  end.

Definition scan_kneighbors (pts : list (nat * nat)) (q : nat * nat) : nat :=
  match pts with
  | [] => O
  | p :: pts' => nearest_from q pts' 1%nat O (dist2 q p)
  end.

(** The fitted point that a query designates. *)
Definition donor_of (kneighbors : list (nat * nat) -> nat * nat -> nat)
  (pts : list (nat * nat)) (q : nat * nat) : nat * nat :=
  nth (kneighbors pts q) pts (O, O).

Section Inpaint.
Variable kneighbors : list (nat * nat) -> nat * nat -> nat.

(** [NearestNeighbors(...).fit(search_coords)]: scikit-learn refuses an
    array without samples. *)
Definition knn_fit (search_coords : list (nat * nat))
  : res (list (nat * nat)) :=
  match search_coords with
  | [] => Raise ValueError
  | _ => OK search_coords
  end.

(** [_, indices = knn.kneighbors(inpaint_coords)]: the same check is
    made on the queries. *)
Definition knn_kneighbors (fitted inpaint_coords : list (nat * nat))
  : res (list nat) :=
  match inpaint_coords with
  | [] => Raise ValueError
  | _ => OK (map (kneighbors fitted) inpaint_coords)
  end.

(** [albedo[tuple(inpaint_coords.T)] = values], one write per row. *)
Definition scatter (albedo : Grid Color)
  (coords : list (nat * nat)) (values : list Color) : Grid Color :=
  fold_left (fun g cv => grid_set g (fst (fst cv)) (snd (fst cv)) (snd cv))
    (combine coords values) albedo.

(** Lines 786-806. *)
Definition inpaint (h w : nat) (mask : Grid bool) (albedo : Grid Color)
  : res (Grid Color) :=
  let inpaint_region := inpaint_region h w mask in
  let search_region := search_region h w mask in
  let search_coords := nonzero h w search_region in
  let inpaint_coords := nonzero h w inpaint_region in
  knn <- knn_fit search_coords ;;
  indices <- knn_kneighbors knn inpaint_coords ;;
  donors <- mapM (py_index search_coords) indices ;;
  let values := map (fun c => getc albedo (fst c) (snd c)) donors in
  OK (scatter albedo inpaint_coords values).

(** Normalisation and hole filling, from the accumulated atlas. *)
Definition finish_texture (h w : nat) (acc : Atlas) : res (Grid Color) :=
  let '(albedo, cnt) := acc in
  let mask := valid_mask h w cnt in
  inpaint h w mask (normalize h w albedo cnt).
End Inpaint.

(** ** Tensors, images and the collaborators of the training loop *)

(** A tensor, flattened. *)
Definition Tensor : Type := list Q.

Fixpoint sq_err (input target : Tensor) : Q :=
  match input, target with
  | a :: input', b :: target' => ((a - b) * (a - b) + sq_err input' target')%Q
  | _, _ => 0%Q
  end.

(** [F.mse_loss(input, target)], mean reduction.  Both arguments have the
    same shape wherever the training step calls it; the model reports a
    [RuntimeError] for arguments of different sizes. *)
Definition mse_loss (input target : Tensor) : res Q :=
  if Nat.eqb (length input) (length target)
  then OK (sq_err input target / inject_Z (Z.of_nat (length input)))%Q
  else Raise RuntimeError.

(** What [cv2.imread(file, cv2.IMREAD_UNCHANGED)] returns: rows of pixels,
    each pixel a vector of [channels] bytes. *)
Record Image : Type := {
  channels : nat;
  pixels : Grid (list Z)
}.

(** An image after [astype(np.float32) / 255.0]. *)
Definition FImage : Type := Grid (list Q).

Record MiniCam (Pose : Type) : Type := {
  pose : Pose;
  width : Z;
  height : Z;
  fovy : Q;
  fovx : Q;
  znear : Q;
  zfar : Q
}.

Arguments pose {Pose} _.
Arguments width {Pose} _.
Arguments height {Pose} _.

(** The dictionary returned by [Renderer.render]. *)
Record RenderOut : Type := {
  image : Tensor;
  alpha : Tensor;
  viewspace_points : Tensor;
  visibility_filter : list bool;
  radii : list Q
}.

(** The modules the class imports: [cam_utils], [gs_renderer] (renderer
    and primitive cloud with its optimizer), [guidance], [rembg], [cv2]
    and the tensor conversions of [torch]. *)
Class Backend : Type := {
  Gaussians : Type;
  Pose : Type;
  StableDiffusion : Type;
  Zero123 : Type;
  orbit_camera : Q -> Q -> Q -> Pose;
  (** [renderer.render(cam, invert_bg_color=b)] on the current cloud *)
  render : Gaussians -> MiniCam Pose -> bool -> RenderOut;
  training_setup : Gaussians -> Gaussians;
  update_learning_rate : Gaussians -> Z -> Gaussians;
  (** [loss.backward(); optimizer.step(); optimizer.zero_grad()] *)
  optimize : Gaussians -> Q -> Gaussians;
  max_radii2D : Gaussians -> list Q;
  set_max_radii2D : Gaussians -> list Q -> Gaussians;
  add_densification_stats : Gaussians -> Tensor -> list bool -> Gaussians;
  densify_and_prune : Gaussians -> Q -> Q -> Q -> Q -> Gaussians;
  reset_opacity : Gaussians -> Gaussians;
  (** [StableDiffusion(device)], [get_text_embeds], [train_step] *)
  new_sd : StableDiffusion;
  get_text_embeds : StableDiffusion -> string -> string -> StableDiffusion;
  sd_train_step : StableDiffusion -> list Tensor -> Q -> Q;
  (** [Zero123(device)], [get_img_embeds], [train_step] *)
  new_zero123 : Zero123;
  get_img_embeds : Zero123 -> Tensor -> Zero123;
  zero123_train_step :
    Zero123 -> list Tensor -> list Z -> list Z -> list Z -> Q -> Q;
  rembg_remove : Image -> res Image;
  (** [cv2.resize(img, (W, H), interpolation=cv2.INTER_AREA)] *)
  cv2_resize : Image -> Z -> Z -> res Image;
  (** [F.interpolate(torch.from_numpy(x).permute(2, 0, 1).unsqueeze(0),
                     (ref_size, ref_size), mode="bilinear")] *)
  to_torch : FImage -> Z -> Tensor
}.

(** The options read by the training step. *)
Record Opt : Type := {
  elevation : Z;
  radius : Q;
  ref_size : Z;
  iters : Z;
  batch_size : Z;
  known_view_weight : Q;
  known_view_mask_weight : Q;
  mv_weight : Q;
  mv_mask_weight : Q;
  lambda_sd : Q;
  lambda_zero123 : Q;
  invert_bg_prob : Q;
  density_start_iter : Z;
  density_end_iter : Z;
  densification_interval : Z;
  opacity_reset_interval : Z;
  densify_grad_threshold : Q
}.

(** The fields of [OrbitCamera] that the cameras copy. *)
Record OrbitCamera : Type := {
  cam_fovy : Q;
  cam_fovx : Q;
  cam_near : Q;
  cam_far : Q
}.

(** The entropy one novel-view sample consumes: [np.random.randint] twice,
    [np.random.rand] once. *)
Record Draw : Type := {
  u_ver : Z;
  u_hor : Z;
  u_bg : Q
}.

(** [math.pi] *)
Definition math_pi : Q := 884279719003555 # 281474976710656.

(** [a % b] *)
Definition py_mod (a b : Z) : res Z :=
  if b =? 0 then Raise ZeroDivisionError else OK (a mod b).

(** [m[vis] = torch.max(m[vis], r[vis])]; a mask or operand of another
    length is an [IndexError]. *)
Definition masked_max (m : list Q) (vis : list bool) (r : list Q)
  : res (list Q) :=
  if Nat.eqb (length vis) (length m) && Nat.eqb (length r) (length m)
  then OK (map (fun t : Q * bool * Q =>
                  let '(a, v, b) := t in if v then q_max a b else a)
             (combine (combine m vis) r))
  else Raise IndexError.

(** *** load_multi_image *)

(** [img[:, i*256:(i+1)*256, :]]: a slice stops at the edge of the array. *)
Definition tile (img : Image) (i : nat) : Image :=
  {| channels := channels img;
     pixels := map (fun row => firstn 256 (skipn (i * 256) row))
                 (pixels img) |}.

(** [masks.append(imgs[i][..., 3:])]
    [imgs[i] = imgs[i][..., :3] * masks[i] + (1 - masks[i])]
    [imgs[i] = imgs[i][..., ::-1].copy()]
    on one pixel.  The mask of a four-channel pixel has one channel, which
    broadcasts over the colours; the model reports a [ValueError] for
    other layouts. *)
Definition composite_px (px : list Q) : res (list Q * list Q) :=
  match skipn 3 px with
  | [m] => OK (rev (map (fun c => c * m + (1 - m))%Q (firstn 3 px)), [m])
  | _ => Raise ValueError
  end.

Definition composite (img : FImage) : res (FImage * FImage) :=
  rows <- mapM (mapM composite_px) img ;;
  OK (map (map fst) rows, map (map snd) rows).

(** ** The GUI object *)

Section GUI.
Context {B : Backend}.

Definition Cam : Type := MiniCam Pose.

Record GUI : Type := {
  opt : Opt;
  W : Z;
  H : Z;
  cam : OrbitCamera;
  gaussians : Gaussians;
  guidance_sd : option StableDiffusion;
  guidance_zero123 : option Zero123;
  enable_sd : bool;
  enable_zero123 : bool;
  input_img : option FImage;
  input_mask : option FImage;
  input_img_torch : option Tensor;
  input_mask_torch : option Tensor;
  prompt : string;
  negative_prompt : string;
  step : Z;
  train_steps : Z;
  fixed_cam : option Cam;
  cameras : list Cam;
  multiImagesTorch : list Tensor;
  multiMasksTorch : list Tensor
}.

(** [MiniCam(pose, size, size, self.cam.fovy, self.cam.fovx,
            self.cam.near, self.cam.far)] *)
Definition mini_cam (g : GUI) (p : Pose) (size : Z) : Cam :=
  {| pose := p; width := size; height := size;
     fovy := cam_fovy (cam g); fovx := cam_fovx (cam g);
     znear := cam_near (cam g); zfar := cam_far (cam g) |}.

(** *** load_multi_image (lines 604-638) *)

Definition prepare_tile (g : GUI) (t : Image) : res FImage :=
  t1 <- (if Nat.eqb (channels t) 3 then rembg_remove t else OK t) ;;
  t2 <- cv2_resize t1 (W g) (H g) ;;
  OK (map (map (map (fun v => inject_Z v / 255)%Q)) (pixels t2)).

Definition load_multi_image (g : GUI) (img : Image)
  : res (list FImage * list FImage) :=
  let imgs := map (tile img) (seq 0 16) in
  imgs <- mapM (prepare_tile g) imgs ;;
  pairs <- mapM composite imgs ;;
  OK (map fst pairs, map snd pairs).

(** *** prepare_train (lines 121-230) *)

(** The cameras built from [enumerate(zip(azs, poses))]: one per entry
    of the shorter sequence, at [angle = 2*math.pi*i/360]. *)
Definition archive_cameras (g : GUI) (azs : list Q) (poses : list Pose)
  : list Cam :=
  map (fun i =>
         let angle := (2 * math_pi * inject_Z (Z.of_nat i) / 360)%Q in
         mini_cam g
           (orbit_camera (inject_Z (elevation (opt g))) angle
              (radius (opt g)))
           (ref_size (opt g)))
      (seq 0 (List.length (combine azs poses))).

Definition prepare_train (g : GUI) (azs : list Q) (poses : list Pose)
  (img : Image) : res GUI :=
  let o := opt g in
  let gs := training_setup (gaussians g) in
  let fixed :=
    mini_cam g (orbit_camera (inject_Z (elevation o)) 0 (radius o))
      (ref_size o) in
  let cams := archive_cameras g azs poses in
  '(multiImages, multiMasks) <- load_multi_image g img ;;
  imgsT <- mapM (fun i => x <- py_index multiImages i ;;
                          OK (to_torch x (ref_size o))) (seq 0 16) ;;
  masksT <- mapM (fun i => x <- py_index multiMasks i ;;
                           OK (to_torch x (ref_size o))) (seq 0 16) ;;
  let en_sd :=
    Qltb 0 (lambda_sd o) && negb (String.eqb (prompt g) "") in
  let en_zero123 :=
    Qltb 0 (lambda_zero123 o)
    && match input_img g with Some _ => true | None => false end in
  let sd :=
    match guidance_sd g with
    | None => if en_sd then Some new_sd else None
    | Some m => Some m
    end in
  let z123 :=
    match guidance_zero123 g with
    | None => if en_zero123 then Some new_zero123 else None
    | Some m => Some m
    end in
  '(img_t, mask_t) <-
    match input_img g with
    | None => OK (input_img_torch g, input_mask_torch g)
    | Some im =>
        match input_mask g with
        | Some mk => OK (Some (to_torch im (ref_size o)),
                         Some (to_torch mk (ref_size o)))
        | None => Raise AttributeError
        end
    end ;;
  sd' <- (if en_sd then
            match sd with
            | Some m =>
                OK (Some (get_text_embeds m (prompt g) (negative_prompt g)))
            | None => Raise AttributeError
            end
          else OK sd) ;;
  z123' <- (if en_zero123 then
              match z123, img_t with
              | Some m, Some t => OK (Some (get_img_embeds m t))
              | _, _ => Raise AttributeError
              end
            else OK z123) ;;
  OK {| opt := o; W := W g; H := H g; cam := cam g;
        gaussians := gs;
        guidance_sd := sd'; guidance_zero123 := z123';
        enable_sd := en_sd; enable_zero123 := en_zero123;
        input_img := input_img g; input_mask := input_mask g;
        input_img_torch := img_t; input_mask_torch := mask_t;
        prompt := prompt g; negative_prompt := negative_prompt g;
        step := 0; train_steps := train_steps g;
        fixed_cam := Some fixed; cameras := cams;
        multiImagesTorch := imgsT; multiMasksTorch := masksT |}.

(** *** train_step (lines 302-487) *)

(** The loss accumulated so far and the binding of the variable [out]. *)
Definition LossOut : Type := (Q * option RenderOut)%type.

(** Known view, lines 317-330. *)
Definition known_view (g : GUI) (G : Gaussians) (r : Q) (acc : LossOut)
  : res LossOut :=
  match input_img_torch g with
  | None => OK acc
  | Some ref =>
      match fixed_cam g, input_mask_torch g with
      | Some cur_cam, Some ref_mask =>
          let out := render G cur_cam false in
          l <- mse_loss (image out) ref ;;
          let loss := (fst acc + known_view_weight (opt g) * r * l)%Q in
          lm <- mse_loss (alpha out) ref_mask ;;
          OK ((loss + known_view_mask_weight (opt g) * r * lm)%Q, Some out)
      | _, _ => Raise AttributeError
      end
  end.

(** One pass of the multi-view loop, lines 334-352. *)
Definition multi_view_body (g : GUI) (G : Gaussians) (r : Q)
  (acc : LossOut) (i : nat) : res LossOut :=
  cur_cam <- py_index (cameras g) i ;;
  let out := render G cur_cam false in
  image <- py_index (multiImagesTorch g) i ;;
  ref <- py_index (multiImagesTorch g) i ;;
  l <- mse_loss image ref ;;
  let loss := (fst acc + mv_weight (opt g) * r * l)%Q in
  mask <- py_index (multiMasksTorch g) i ;;
  ref_mask <- py_index (multiMasksTorch g) i ;;
  lm <- mse_loss mask ref_mask ;;
  OK ((loss + mv_mask_weight (opt g) * r * lm)%Q, Some out).

Definition multi_view (g : GUI) (G : Gaussians) (r : Q) (acc : LossOut)
  : res LossOut :=
  foldM (multi_view_body g G r) (seq 0 16) acc.

(** The novel-view batch, lines 399-440. *)
Record Batch : Type := {
  images : list Tensor;
  b_vers : list Z;
  b_hors : list Z;
  b_radii : list Z;
  b_out : option RenderOut
}.

(** The camera and background of one sample. *)
Definition novel_sample (g : GUI) (r : Q) (d : Draw)
  : res (Z * Z * Z * Cam * bool) :=
  let o := opt g in
  let render_resolution := render_resolution r in
  ver <- randint (min_ver (elevation o)) (max_ver (elevation o)) (u_ver d) ;;
  hor <- randint (-180) 180 (u_hor d) ;;
  let radius0 := 0 in
  let p := orbit_camera (inject_Z (elevation o + ver)) (inject_Z hor)
             (radius o + inject_Z radius0)%Q in
  let cur_cam := mini_cam g p render_resolution in
  let invert_bg_color := Qltb (invert_bg_prob o) (u_bg d) in
  OK (ver, hor, radius0, cur_cam, invert_bg_color).

Definition novel_body (g : GUI) (G : Gaussians) (r : Q)
  (draws : nat -> Draw) (acc : Batch) (k : nat) : res Batch :=
  '(ver, hor, radius0, cur_cam, invert_bg_color) <-
    novel_sample g r (draws k) ;;
  let out := render G cur_cam invert_bg_color in
  OK {| images := images acc ++ [image out];
        b_vers := b_vers acc ++ [ver];
        b_hors := b_hors acc ++ [hor];
        b_radii := b_radii acc ++ [radius0];
        b_out := Some out |}.

Definition novel_batch (g : GUI) (G : Gaussians) (r : Q)
  (draws : nat -> Draw) (out : option RenderOut) : res Batch :=
  b <- foldM (novel_body g G r draws)
         (seq 0 (Z.to_nat (batch_size (opt g))))
         {| images := []; b_vers := []; b_hors := []; b_radii := [];
            b_out := out |} ;;
  (* images = torch.cat(images, dim=0) *)
  match images b with
  | [] => Raise RuntimeError
  | _ => OK b
  end.

(** Guidance, lines 446-454. *)
Definition sd_term (g : GUI) (r : Q) (b : Batch) (loss : Q) : res Q :=
  if enable_sd g then
    match guidance_sd g with
    | Some m =>
        OK (loss + lambda_sd (opt g) * sd_train_step m (images b) r)%Q
    | None => Raise AttributeError
    end
  else OK loss.

Definition zero123_term (g : GUI) (r : Q) (b : Batch) (loss : Q) : res Q :=
  if enable_zero123 g then
    match guidance_zero123 g with
    | Some m =>
        OK (loss + lambda_zero123 (opt g)
                   * zero123_train_step m (images b) (b_vers b) (b_hors b)
                       (b_radii b) r)%Q
    | None => Raise AttributeError
    end
  else OK loss.

Definition guidance (g : GUI) (r : Q) (b : Batch) (loss : Q) : res Q :=
  loss <- sd_term g r b loss ;;
  zero123_term g r b loss.

(** The loss of one iteration, up to [loss.backward()]. *)
Definition compose_loss (g : GUI) (G : Gaussians) (r : Q)
  (draws : nat -> Draw) : res (Q * Batch) :=
  acc <- known_view g G r (0%Q, None) ;;
  acc <- multi_view g G r acc ;;
  b <- novel_batch g G r draws (snd acc) ;;
  loss <- guidance g r b (fst acc) ;;
  OK (loss, b).

(** Densify and prune, lines 472-487, with the binding of [out] at that
    point. *)
Definition in_density_window (o : Opt) (step : Z) : bool :=
  (density_start_iter o <=? step) && (step <=? density_end_iter o).

(** [max_radii2D[visibility_filter] = torch.max(...)] and
    [add_densification_stats(viewspace_point_tensor, visibility_filter)] *)
Definition record_stats (G : Gaussians) (out : RenderOut)
  : res Gaussians :=
  let viewspace_point_tensor := viewspace_points out in
  let visibility_filter := visibility_filter out in
  let radii := radii out in
  m <- masked_max (max_radii2D G) visibility_filter radii ;;
  let G := set_max_radii2D G m in
  OK (add_densification_stats G viewspace_point_tensor visibility_filter).

(** The two interval tests, lines 481-487. *)
Definition interval_actions (o : Opt) (step : Z) (G : Gaussians)
  : res Gaussians :=
  k <- py_mod step (densification_interval o) ;;
  let G := if k =? 0
           then densify_and_prune G (densify_grad_threshold o)
                  (1 # 100) (1 # 2) 1
           else G in
  k <- py_mod step (opacity_reset_interval o) ;;
  OK (if k =? 0 then reset_opacity G else G).

Definition densify (o : Opt) (step : Z) (G : Gaussians)
  (out : option RenderOut) : res Gaussians :=
  if in_density_window o step then
    match out with
    | None => Raise UnboundLocalError
    | Some out =>
        G <- record_stats G out ;;
        interval_actions o step G
    end
  else OK G.

Definition set_progress (g : GUI) (step : Z) (G : Gaussians) : GUI :=
  {| opt := opt g; W := W g; H := H g; cam := cam g;
     gaussians := G;
     guidance_sd := guidance_sd g; guidance_zero123 := guidance_zero123 g;
     enable_sd := enable_sd g; enable_zero123 := enable_zero123 g;
     input_img := input_img g; input_mask := input_mask g;
     input_img_torch := input_img_torch g;
     input_mask_torch := input_mask_torch g;
     prompt := prompt g; negative_prompt := negative_prompt g;
     step := step; train_steps := train_steps g;
     fixed_cam := fixed_cam g; cameras := cameras g;
     multiImagesTorch := multiImagesTorch g;
     multiMasksTorch := multiMasksTorch g |}.

(** The body of [for _ in range(self.train_steps)]. *)
Definition train_iter (g : GUI) (draws : nat -> Draw) : res (GUI * Q) :=
  let step := step g + 1 in
  r <- step_ratio step (iters (opt g)) ;;
  let G := update_learning_rate (gaussians g) step in
  '(loss, b) <- compose_loss g G r draws ;;
  let G := optimize G loss in
  G <- densify (opt g) step G (b_out b) ;;
  OK (set_progress g step G, loss).

(** [train_step]: [train_steps] iterations, the [n]-th one reading the
    entropy [draws n]. *)
Definition train_step (g : GUI) (draws : nat -> nat -> Draw) : res GUI :=
  foldM (fun g n => gl <- train_iter g (draws n) ;; OK (fst gl))
    (seq 0 (Z.to_nat (train_steps g))) g.

(** The multi-view term as section 4.2 of the specification writes it:
    the image and the alpha rendered from camera [i] against tile [i]. *)
Definition spec_multi_view_body (g : GUI) (G : Gaussians) (r : Q)
  (acc : LossOut) (i : nat) : res LossOut :=
  cur_cam <- py_index (cameras g) i ;;
  let out := render G cur_cam false in
  ref <- py_index (multiImagesTorch g) i ;;
  l <- mse_loss (image out) ref ;;
  let loss := (fst acc + mv_weight (opt g) * r * l)%Q in
  ref_mask <- py_index (multiMasksTorch g) i ;;
  lm <- mse_loss (alpha out) ref_mask ;;
  OK ((loss + mv_mask_weight (opt g) * r * lm)%Q, Some out).

Definition spec_multi_view (g : GUI) (G : Gaussians) (r : Q)
  (acc : LossOut) : res LossOut :=
  foldM (spec_multi_view_body g G r) (seq 0 16) acc.

(** What the two guidance terms add to the loss of a step. *)
Definition sd_contribution (g : GUI) (r : Q) (b : Batch) : Q :=
  if enable_sd g then
    match guidance_sd g with
    | Some m => (lambda_sd (opt g) * sd_train_step m (images b) r)%Q
    | None => 0%Q
    end
  else 0%Q.

Definition zero123_contribution (g : GUI) (r : Q) (b : Batch) : Q :=
  if enable_zero123 g then
    match guidance_zero123 g with
    | Some m =>
        (lambda_zero123 (opt g)
         * zero123_train_step m (images b) (b_vers b) (b_hors b)
             (b_radii b) r)%Q
    | None => 0%Q
    end
  else 0%Q.
End GUI.

(** ** A small instance for running the model

    A cloud is the list of its maximal screen radii; a pose is the triple
    given to [orbit_camera]; a render shows the elevation of the camera in
    its single pixel; both guidance models answer 1. *)

Definition toy_render (G : list Q) (c : MiniCam (Q * Q * Q)) (inv : bool)
  : RenderOut :=
  let '(e, a, _) := pose c in
  {| image := [e];
     alpha := [if inv then 0 else 1]%Q;
     viewspace_points := [a];
     visibility_filter := map (fun _ => true) G;
     radii := map (fun _ => e) G |}.

Definition toy_resize (img : Image) (w h : Z) : res Image :=
  match pixels img with
  | (px :: _) :: _ => OK {| channels := channels img; pixels := [[px]] |}
  | _ => Raise CvError
  end.

Definition toy : Backend := {|
  Gaussians := list Q;
  Pose := (Q * Q * Q)%type;
  StableDiffusion := unit;
  Zero123 := unit;
  orbit_camera := fun e a r => (e, a, r);
  render := toy_render;
  training_setup := fun G => G;
  update_learning_rate := fun G _ => G;
  optimize := fun G _ => G;
  max_radii2D := fun G => G;
  set_max_radii2D := fun _ m => m;
  add_densification_stats := fun G _ _ => G;
  densify_and_prune := fun G _ _ _ _ => G;
  reset_opacity := fun G => G;
  new_sd := tt;
  get_text_embeds := fun m _ _ => m;
  sd_train_step := fun _ _ _ => 1%Q;
  new_zero123 := tt;
  get_img_embeds := fun m _ => m;
  zero123_train_step := fun _ _ _ _ _ _ => 1%Q;
  rembg_remove := fun img => OK img;
  cv2_resize := toy_resize;
  to_torch := fun x _ => concat (concat x)
|}.

Definition toy_opt : Opt := {|
  elevation := 0;
  radius := 2;
  ref_size := 1;
  iters := 2;
  batch_size := 2;
  known_view_weight := 1;
  known_view_mask_weight := 1;
  mv_weight := 1;
  mv_mask_weight := 1;
  lambda_sd := 1;
  lambda_zero123 := 0;
  invert_bg_prob := 1 # 2;
  density_start_iter := 0;
  density_end_iter := 10;
  densification_interval := 100;
  opacity_reset_interval := 700;
  densify_grad_threshold := 1 # 2
|}.

(** The object as [__init__] leaves it, with a prompt and no input image. *)
Definition toy_init : @GUI toy := {|
  opt := toy_opt; W := 1; H := 1;
  cam := {| cam_fovy := 1; cam_fovx := 1; cam_near := 1 # 100;
            cam_far := 100 |};
  gaussians := ([0; 5]%Q : @Gaussians toy);
  guidance_sd := None; guidance_zero123 := None;
  enable_sd := false; enable_zero123 := false;
  input_img := None; input_mask := None;
  input_img_torch := None; input_mask_torch := None;
  prompt := "a chair"; negative_prompt := "";
  step := 0; train_steps := 1;
  fixed_cam := None; cameras := [];
  multiImagesTorch := []; multiMasksTorch := []
|}.

(** A pose archive of sixteen entries. *)
Definition toy_azs : list Q := repeat 0%Q 16.
Definition toy_poses : list (Q * Q * Q) := repeat (0, 0, 0)%Q 16.

(** A multi-view image of one row: fifteen tiles of 256 opaque black
    pixels and a single further pixel, 3841 columns in all. *)
Definition narrow_image : Image :=
  {| channels := 4; pixels := [repeat [0; 0; 0; 255] 3841] |}.

Definition toy_draws (k : nat) : Draw :=
  {| u_ver := Z.of_nat k * 7; u_hor := Z.of_nat k * 11; u_bg := 3 # 4 |}.

(** The object after [prepare_train] on sixteen reference tiles that are
    black where the toy renderer is not. *)
Definition toy_trained : @GUI toy :=
  let c : MiniCam (Q * Q * Q) :=
    {| pose := (1, 0, 2)%Q; width := 1; height := 1; fovy := 1; fovx := 1;
       znear := 1 # 100; zfar := 100 |} in
  {| opt := toy_opt; W := 1; H := 1;
     cam := {| cam_fovy := 1; cam_fovx := 1; cam_near := 1 # 100;
               cam_far := 100 |};
     gaussians := ([0; 5]%Q : @Gaussians toy);
     guidance_sd := (Some tt : option (@StableDiffusion toy)); guidance_zero123 := None;
     enable_sd := true; enable_zero123 := false;
     input_img := None; input_mask := None;
     input_img_torch := None; input_mask_torch := None;
     prompt := "a chair"; negative_prompt := "";
     step := 0; train_steps := 1;
     fixed_cam := (Some c : option (@Cam toy)); cameras := repeat c 16;
     multiImagesTorch := repeat [0%Q] 16;
     multiMasksTorch := repeat [0%Q] 16 |}.

(** A projection that writes the viewing angles, with weight 0.3, into
    the single texel of a one-by-one atlas. *)
Definition toy_project (v : Q * Q) : Atlas :=
  ([[(fst v, snd v, 1%Q)]], [[3 # 10]]).

(** A batch of one rendered view. *)
Definition toy_batch : Batch :=
  {| images := [[1%Q]]; b_vers := [0]; b_hors := [0]; b_radii := [0];
     b_out := None |}.

(** An atlas of one texel that no viewpoint has written. *)
Definition blank_cnt : Grid Q := [[0%Q]].
Definition blank_albedo : Grid Color := [[black]].

(** A kNN test atlas of one row: two valid texels, red and blue, and two
    holes between them. *)
Definition row_cnt : Grid Q := [[1; 0; 0; 1]]%Q.
Definition row_albedo : Grid Color :=
  [[(1, 0, 0); (0, 0, 0); (0, 0, 0); (0, 0, 1)]]%Q.

(** ** Further instances for running the model *)

(** The options of [toy_opt] with an empty batch. *)
Definition toy_opt_no_batch : Opt := {|
  elevation := 0;
  radius := 2;
  ref_size := 1;
  iters := 2;
  batch_size := 0;
  known_view_weight := 1;
  known_view_mask_weight := 1;
  mv_weight := 1;
  mv_mask_weight := 1;
  lambda_sd := 1;
  lambda_zero123 := 0;
  invert_bg_prob := 1 # 2;
  density_start_iter := 0;
  density_end_iter := 10;
  densification_interval := 100;
  opacity_reset_interval := 700;
  densify_grad_threshold := 1 # 2
|}.

Definition toy_no_batch : @GUI toy :=
  {| opt := toy_opt_no_batch; W := 1; H := 1;
     cam := cam toy_trained;
     gaussians := gaussians toy_trained;
     guidance_sd := guidance_sd toy_trained;
     guidance_zero123 := guidance_zero123 toy_trained;
     enable_sd := true; enable_zero123 := false;
     input_img := None; input_mask := None;
     input_img_torch := None; input_mask_torch := None;
     prompt := "a chair"; negative_prompt := "";
     step := 0; train_steps := 1;
     fixed_cam := fixed_cam toy_trained; cameras := cameras toy_trained;
     multiImagesTorch := multiImagesTorch toy_trained;
     multiMasksTorch := multiMasksTorch toy_trained |}.

(** ** Distances and colours for stating properties of the atlas *)

(** City-block distance between two texels. *)
Definition manhattan (p q : nat * nat) : Z :=
  Z.abs (Z.of_nat (fst p) - Z.of_nat (fst q))
  + Z.abs (Z.of_nat (snd p) - Z.of_nat (snd q)).

(** Equality of colours, channel by channel, as rationals. *)
Definition color_eq (a b : Color) : Prop :=
  let '(r1, g1, b1) := a in
  let '(r2, g2, b2) := b in
  (r1 == r2 /\ g1 == g2 /\ b1 == b2)%Q.

(** The colour [c] weighted by [k]. *)
Definition color_scale (k : Q) (c : Color) : Color :=
  let '(r1, g1, b1) := c in (k * r1, k * g1, k * b1)%Q.

(** A projection that splats one colour, orange, with weight 0.3 on the
    left texel of a row of two and weight 0 on the right one. *)
Definition orange : Color := (1, 1 # 2, 0)%Q.

Definition orange_project (v : Q * Q) : Atlas :=
  ([[color_scale (3 # 10) orange; color_scale 0 orange]], [[3 # 10; 0]])%Q.

(** ** load_input, test_step and train *)

Section Session.
Context {B : Backend}.

(** [load_input] (lines 579-602) on the decoded image; [caption] is the
    stripped content of the caption file next to the image, when there
    is one. *)
Definition load_input (g : GUI) (img : Image) (caption : option string)
  : res GUI :=
  f <- prepare_tile g img ;;
  '(rgb, mask) <- composite f ;;
  OK {| opt := opt g; W := W g; H := H g; cam := cam g;
        gaussians := gaussians g;
        guidance_sd := guidance_sd g; guidance_zero123 := guidance_zero123 g;
        enable_sd := enable_sd g; enable_zero123 := enable_zero123 g;
        input_img := Some rgb; input_mask := Some mask;
        input_img_torch := input_img_torch g;
        input_mask_torch := input_mask_torch g;
        prompt := match caption with Some c => c | None => prompt g end;
        negative_prompt := negative_prompt g;
        step := step g; train_steps := train_steps g;
        fixed_cam := fixed_cam g; cameras := cameras g;
        multiImagesTorch := multiImagesTorch g;
        multiMasksTorch := multiMasksTorch g |}.

(** [renderer.gaussians.prune(min_opacity, extent, max_screen_size)] *)
Variable prune : Gaussians -> Q -> Q -> Q -> Gaussians.

(** [train] (lines 1203-1213) up to the two calls of [save_model]:
    nothing when [iters] is not positive, else the preparation, [iters]
    calls of [train_step] and a last pruning. *)
Definition train (g : GUI) (iters : Z) (azs : list Q) (poses : list Pose)
  (img : Image) (draws : nat -> nat -> nat -> Draw) : res GUI :=
  if 0 <? iters then
    g <- prepare_train g azs poses img ;;
    g <- foldM (fun g i => train_step g (draws i))
           (seq 0 (Z.to_nat iters)) g ;;
    OK (set_progress g (step g) (prune (gaussians g) (1 # 100) 1 1))
  else OK g.

(** The display modes of the viewer, the keys ["image"], ["depth"] and
    ["alpha"] of a render. *)
Inductive Mode : Set := ImageMode | DepthMode | AlphaMode.

(** The fields of the object that only the viewer reads and writes. *)
Record Viewer : Type := {
  mode : Mode;
  need_update : bool;
  buffer_image : Tensor;
  overlay_input_img : bool;
  overlay_input_img_ratio : Q;
  gaussain_scale_factor : Q
}.

(** [renderer.render(cur_cam, scale)[mode]], and
    [F.interpolate(x.unsqueeze(0), size=(H, W)).squeeze(0).permute(1, 2, 0)]. *)
Variable render_view : Gaussians -> Cam -> Q -> Mode -> Tensor.
Variable resample : Tensor -> Z -> Z -> Tensor.
(** [self.cam.pose] *)
Variable view_pose : Pose.

Definition q_min (a b : Q) : Q := if Qltb b a then b else a.

(** [(x - x.min()) / (x.max() - x.min() + 1e-20)]; the extrema of an
    empty tensor are a [RuntimeError]. *)
Definition normalize_depth (x : Tensor) : res Tensor :=
  match x with
  | [] => Raise RuntimeError
  | a :: t =>
      let lo := fold_left q_min t a in
      let hi := fold_left q_max t a in
      OK (map (fun v => (v - lo) / (hi - lo + (1 # 100000000000000000000)))%Q
            x)
  end.

(** [.clamp(0, 1)] on one entry. *)
Definition clamp01 (v : Q) : Q :=
  if Qltb v 0 then 0%Q else if Qltb 1 v then 1%Q else v.

(** [buffer * (1 - ratio) + input_img * ratio], entry by entry; arrays
    of different sizes are a [ValueError]. *)
Definition overlay (ratio : Q) (buffer input : Tensor) : res Tensor :=
  if Nat.eqb (List.length buffer) (List.length input)
  then OK (map (fun p => fst p * (1 - ratio) + snd p * ratio)%Q
             (combine buffer input))
  else Raise ValueError.

(** [test_step] (lines 509-577), without the timing and the widgets. *)
Definition test_step (g : GUI) (v : Viewer) : res Viewer :=
  if negb (need_update v) then OK v
  else
    let cur_cam : Cam :=
      {| pose := view_pose; width := W g; height := H g;
         fovy := cam_fovy (cam g); fovx := cam_fovx (cam g);
         znear := cam_near (cam g); zfar := cam_far (cam g) |} in
    let out := render_view (gaussians g) cur_cam (gaussain_scale_factor v)
                 (mode v) in
    buf <- match mode v with
           | ImageMode => OK out
           | AlphaMode => OK (out ++ out ++ out)
           | DepthMode => normalize_depth (out ++ out ++ out)
           end ;;
    let buf := map clamp01 (resample buf (H g) (W g)) in
    buf <- (if overlay_input_img v then
              match input_img g with
              | Some im =>
                  overlay (overlay_input_img_ratio v) buf
                    (concat (concat im))
              | None => OK buf
              end
            else OK buf) ;;
    OK {| mode := mode v; need_update := false; buffer_image := buf;
          overlay_input_img := overlay_input_img v;
          overlay_input_img_ratio := overlay_input_img_ratio v;
          gaussain_scale_factor := gaussain_scale_factor v |}.
End Session.

(** The tensors whose entries all lie between 0 and 1. *)
Definition unit_range (x : Tensor) : Prop :=
  Forall (fun v => 0 <= v <= 1)%Q x.

(** A viewer that awaits a redraw, and a toy view. *)
Definition toy_viewer : Viewer :=
  {| mode := DepthMode; need_update := true; buffer_image := [];
     overlay_input_img := false; overlay_input_img_ratio := 1 # 2;
     gaussain_scale_factor := 1 |}.

Definition toy_view (G : list Q) (c : MiniCam (Q * Q * Q)) (s : Q) (m : Mode)
  : Tensor :=
  [-3; 1 # 2; 7]%Q.

(** * Properties *)

(** ** The exception monad *)

Lemma bind_OK_inv {A B : Type} (c : res A) (k : A -> res B) (b : B) :
  bind c k = OK b -> exists a, c = OK a /\ k a = OK b.
Proof.
  destruct c as [a|e]; simpl; intros E; [eauto | discriminate].
Qed.

Ltac inv_bind E :=
  let a := fresh "a" in
  let Ea := fresh "E" a in
  apply bind_OK_inv in E; destruct E as (a & Ea & E).

Ltac inv_bind_as E a Ea :=
  apply bind_OK_inv in E; destruct E as (a & Ea & E).

Lemma py_index_OK {A : Type} (xs : list A) (i : nat) :
  (i < List.length xs)%nat -> exists x, py_index xs i = OK x.
Proof.
  intros Hi. unfold py_index.
  destruct (nth_error xs i) eqn:E; [eauto|].
  apply nth_error_None in E. lia.
Qed.

Lemma mapM_length {A B : Type} (f : A -> res B) (xs : list A) (ys : list B) :
  mapM f xs = OK ys -> List.length ys = List.length xs.
Proof.
  revert ys. induction xs as [|x xs IH]; simpl; intros ys E.
  - now inversion E.
  - inv_bind E. inv_bind E. inversion E; subst. simpl.
    f_equal. now apply IH.
Qed.

(** ** Rational comparisons *)

Lemma Qltb_lt (x y : Q) : Qltb x y = true <-> (x < y)%Q.
Proof.
  unfold Qltb. rewrite negb_true_iff.
  split.
  - intros E. apply Qnot_le_lt. intros Hle.
    apply Qle_bool_iff in Hle. congruence.
  - intros Hlt. destruct (Qle_bool y x) eqn:E; [|reflexivity].
    apply Qle_bool_iff in E. exfalso. exact (Qlt_not_le _ _ Hlt E).
Qed.

Lemma Qltb_ge (x y : Q) : Qltb x y = false <-> (y <= x)%Q.
Proof.
  unfold Qltb. rewrite negb_false_iff. apply Qle_bool_iff.
Qed.

(** ** Novel-view sampling *)

Lemma randint_range (low high u v : Z) :
  randint low high u = OK v -> low <= v < high.
Proof.
  unfold randint. destruct (Z.ltb_spec low high); [|discriminate].
  intros [= <-].
  pose proof (Z.mod_pos_bound u (high - low)). lia.
Qed.

Lemma randint_onto (low high v : Z) :
  low <= v < high -> randint low high (v - low) = OK v.
Proof.
  intros Hv. unfold randint.
  destruct (Z.ltb_spec low high); [|lia].
  rewrite Z.mod_small by lia. f_equal. lia.
Qed.

Lemma randint_total (low high u : Z) :
  low < high -> exists v, randint low high u = OK v.
Proof.
  intros Hlt. unfold randint.
  destruct (Z.ltb_spec low high); [eauto|lia].
Qed.

Lemma ver_range_nonempty (e : Z) : min_ver e < max_ver e.
Proof. unfold min_ver, max_ver. lia. Qed.

Lemma attainable_ver_iff (e ver : Z) :
  attainable_ver e ver <-> min_ver e <= ver < max_ver e.
Proof.
  split.
  - intros [u Hu]. eapply randint_range; eauto.
  - intros Hv. exists (ver - min_ver e). now apply randint_onto.
Qed.

(** The absolute elevations a draw can reach form the half-open interval
    from [max(min(e - 30, -30), -80)] to [min(max(e + 30, 30), 80)]. *)
Lemma attainable_elevation_iff (e abs : Z) :
  attainable_elevation e abs <->
  Z.max (Z.min (e - 30) (-30)) (-80) <= abs < Z.min (Z.max (e + 30) 30) 80.
Proof.
  unfold attainable_elevation. split.
  - intros (ver & Hver & ->). apply attainable_ver_iff in Hver.
    unfold min_ver, max_ver in Hver. lia.
  - intros Habs. exists (abs - e). split; [|lia].
    apply attainable_ver_iff. unfold min_ver, max_ver. lia.
Qed.

(** Sampled absolute elevations never leave the band of 80 degrees. *)
Lemma attainable_elevation_bounded (e abs : Z) :
  attainable_elevation e abs -> -80 <= abs < 80.
Proof. rewrite attainable_elevation_iff. lia. Qed.

(** They cover the window of 30 degrees around the base elevation and the
    one around the horizon, both without their upper end. *)
Lemma attainable_elevation_covers (e abs : Z) :
  (e - 30 <= abs < e + 30 /\ -80 <= abs < 80) \/ -30 <= abs < 30 ->
  attainable_elevation e abs.
Proof. rewrite attainable_elevation_iff. lia. Qed.

(** C3, at the base elevation 0 of the default configuration: the
    offsets are drawn between -30 and 30 with the upper bound excluded, so
    29 degrees is attainable and 30 degrees is not, although 30 lies in
    the window from -30 to 30 that the specification and the comment of
    line 404 promise to cover. *)
Theorem elevation_window_misses_upper_end :
  min_ver 0 = -30 /\ max_ver 0 = 30 /\
  attainable_elevation 0 29 /\ ~ attainable_elevation 0 30.
Proof.
  repeat split; try reflexivity.
  - apply attainable_elevation_iff. lia.
  - rewrite attainable_elevation_iff. lia.
Qed.

Section SamplingProperties.
Context {B : Backend}.

(** A sample never fails: both intervals are inhabited. *)
Lemma novel_sample_total (g : GUI) (r : Q) (d : Draw) :
  exists ver hor c inv,
    novel_sample g r d = OK (ver, hor, 0, c, inv) /\
    pose c = orbit_camera (inject_Z (elevation (opt g) + ver))
               (inject_Z hor) (radius (opt g) + inject_Z 0)%Q /\
    width c = render_resolution r /\ height c = render_resolution r /\
    inv = Qltb (invert_bg_prob (opt g)) (u_bg d).
Proof.
  unfold novel_sample.
  destruct (randint_total (min_ver (elevation (opt g)))
              (max_ver (elevation (opt g))) (u_ver d)
              (ver_range_nonempty _)) as [ver ->].
  destruct (randint_total (-180) 180 (u_hor d) eq_refl) as [hor ->].
  simpl. do 4 eexists. split; [reflexivity|]. simpl. auto.
Qed.

(** C4: the camera of every novel-view sample is square, of side 128
    when the step ratio is below 0.3, of side 256 from 0.3 up to but not
    including 0.6, and of side 512 from 0.6 on. *)
Theorem render_resolution_staged (g : GUI) (r : Q) (d : Draw)
  (ver hor rad : Z) (c : Cam) (inv : bool) :
  novel_sample g r d = OK (ver, hor, rad, c, inv) ->
  width c = height c /\
  ((r < 3 # 10)%Q -> width c = 128) /\
  ((3 # 10 <= r)%Q /\ (r < 6 # 10)%Q -> width c = 256) /\
  ((6 # 10 <= r)%Q -> width c = 512).
Proof.
  intros E.
  destruct (novel_sample_total g r d)
    as (ver' & hor' & c' & inv' & E' & _ & Hw & Hh & _).
  rewrite E' in E. inversion E; subst. rewrite Hw, Hh.
  split; [reflexivity|]. unfold render_resolution.
  repeat split.
  - intros Hr. apply Qltb_lt in Hr. now rewrite Hr.
  - intros [Hlo Hhi]. apply Qltb_ge in Hlo. apply Qltb_lt in Hhi.
    now rewrite Hlo, Hhi.
  - intros Hr.
    assert (Hlo : Qltb r (3 # 10) = false).
    { apply Qltb_ge. eapply Qle_trans; [|exact Hr]. discriminate. }
    apply Qltb_ge in Hr. now rewrite Hlo, Hr.
Qed.
End SamplingProperties.

Lemma render_resolution_staged_witness :
  exists c : @Cam toy,
    novel_sample toy_trained (1 # 2) (toy_draws 0)
      = OK (-30, -180, 0, c, true) /\ width c = 256.
Proof.
  eexists. split; [reflexivity|].
  refine (proj1 (proj2 (proj2
            (@render_resolution_staged toy toy_trained (1 # 2) (toy_draws 0)
               _ _ _ _ _ eq_refl))) _).
  split; discriminate || reflexivity.
Defined.

(** ** Grids *)

Lemma grid_get_tabulate {A : Type} (d : A) (h w : nat)
  (f : nat -> nat -> A) (i j : nat) :
  grid_get d (tabulate h w f) i j =
  if (i <? h)%nat && (j <? w)%nat then f i j else d.
Proof.
  unfold grid_get, tabulate.
  destruct (Nat.ltb_spec i h) as [Hi|Hi]; simpl.
  - rewrite (nth_indep _ [] (map (fun j0 => f 0%nat j0) (seq 0 w)))
      by (now rewrite length_map, length_seq).
    rewrite (map_nth (fun i0 => map (fun j0 => f i0 j0) (seq 0 w))).
    rewrite seq_nth by assumption. simpl.
    destruct (Nat.ltb_spec j w) as [Hj|Hj].
    + rewrite (nth_indep _ d (f i 0%nat))
        by (now rewrite length_map, length_seq).
      rewrite (map_nth (fun j0 => f i j0)).
      now rewrite seq_nth.
    + apply nth_overflow. now rewrite length_map, length_seq.
  - rewrite (nth_overflow (map _ _)) by (now rewrite length_map, length_seq).
    now destruct j.
Qed.

Lemma grid_get_tabulate_in {A : Type} (d : A) (h w : nat)
  (f : nat -> nat -> A) (i j : nat) :
  (i < h)%nat -> (j < w)%nat -> grid_get d (tabulate h w f) i j = f i j.
Proof.
  intros Hi Hj. rewrite grid_get_tabulate.
  apply Nat.ltb_lt in Hi, Hj. now rewrite Hi, Hj.
Qed.

(** A set entry of a tabulated mask lies inside the array. *)
Lemma getb_tabulate_true (h w : nat) (f : nat -> nat -> bool) (i j : nat) :
  getb (tabulate h w f) i j = true ->
  (i < h)%nat /\ (j < w)%nat /\ f i j = true.
Proof.
  unfold getb. rewrite grid_get_tabulate.
  destruct (Nat.ltb_spec i h); destruct (Nat.ltb_spec j w); simpl;
    intros E; try discriminate; auto.
Qed.

(** ** Texture accumulation *)

Section BakeProperties.
Variable project : Q * Q -> Atlas.
Variables h w : nat.

(** A texel whose count has reached 0.1 is outside the write mask. *)
Lemma accumulate_frozen (acc cur : Atlas) (i j : nat) :
  (i < h)%nat -> (j < w)%nat ->
  (1 # 10 <= getq (snd acc) i j)%Q ->
  getc (fst (accumulate h w acc cur)) i j = getc (fst acc) i j /\
  getq (snd (accumulate h w acc cur)) i j = getq (snd acc) i j.
Proof.
  intros Hi Hj Hc. destruct acc as [albedo cnt], cur as [ca cc].
  simpl in *. apply Qltb_ge in Hc.
  unfold getc, getq, getb.
  rewrite !grid_get_tabulate_in by assumption.
  fold (getq cnt i j). now rewrite Hc.
Qed.

Lemma bake_from_frozen (views : list (Q * Q)) (acc : Atlas) (i j : nat) :
  (i < h)%nat -> (j < w)%nat ->
  (1 # 10 <= getq (snd acc) i j)%Q ->
  getc (fst (bake_from project h w acc views)) i j = getc (fst acc) i j /\
  getq (snd (bake_from project h w acc views)) i j = getq (snd acc) i j.
Proof.
  intros Hi Hj. revert acc.
  induction views as [|v views IH]; intros acc Hc; simpl; [auto|].
  destruct (accumulate_frozen acc (project v) i j Hi Hj Hc) as [Ea Ec].
  destruct (IH (accumulate h w acc (project v))) as [Ea' Ec'].
  - now rewrite Ec.
  - unfold bake_from in *. simpl. rewrite Ea', Ec'. auto.
Qed.

Lemma bake_firstn_split (views : list (Q * Q)) (n m : nat) :
  (n <= m)%nat ->
  bake project h w (firstn m views) =
  bake_from project h w (bake project h w (firstn n views))
    (firstn (m - n) (skipn n views)).
Proof.
  intros Hnm. unfold bake, bake_from.
  rewrite <- fold_left_app. f_equal.
  rewrite <- (firstn_skipn n (firstn m views)) at 1.
  rewrite firstn_firstn, skipn_firstn_comm.
  now rewrite Nat.min_l by assumption.
Qed.

(** C6: once the count of a texel has reached 0.1 after some number [n]
    of viewpoints, every longer run of the loop, over [m >= n]
    viewpoints of the same list, leaves the colour sum and the count of
    that texel as they were after [n]. *)
Theorem first_sufficient_view_wins (views : list (Q * Q)) (n m i j : nat) :
  (n <= m)%nat -> (i < h)%nat -> (j < w)%nat ->
  (1 # 10 <= getq (snd (bake project h w (firstn n views))) i j)%Q ->
  getc (fst (bake project h w (firstn m views))) i j
    = getc (fst (bake project h w (firstn n views))) i j /\
  getq (snd (bake project h w (firstn m views))) i j
    = getq (snd (bake project h w (firstn n views))) i j.
Proof.
  intros Hnm Hi Hj Hc.
  rewrite (bake_firstn_split views n m Hnm).
  now apply bake_from_frozen.
Qed.
End BakeProperties.

Lemma first_sufficient_view_wins_witness :
  getc (fst (bake toy_project 1 1 (firstn 26 viewpoints))) 0 0
    = getc (fst (bake toy_project 1 1 (firstn 1 viewpoints))) 0 0 /\
  getq (snd (bake toy_project 1 1 (firstn 26 viewpoints))) 0 0
    = getq (snd (bake toy_project 1 1 (firstn 1 viewpoints))) 0 0.
Proof.
  apply (first_sufficient_view_wins toy_project 1 1 viewpoints 1 26 0 0);
    [lia | lia | lia | vm_compute; discriminate].
Defined.

(** ** Writing into a grid *)

Lemma list_set_length {A : Type} (l : list A) (n : nat) (v : A) :
  List.length (list_set l n v) = List.length l.
Proof.
  revert n. induction l as [|x l IH]; intros [|n]; simpl; auto.
Qed.

Lemma nth_list_set {A : Type} (l : list A) (n n' : nat) (v d : A) :
  nth n' (list_set l n v) d =
  if (n' =? n)%nat && (n <? List.length l)%nat then v else nth n' l d.
Proof.
  revert n n'. induction l as [|x l IH]; intros n n'; simpl.
  - rewrite andb_false_r. now destruct n.
  - destruct n as [|n], n' as [|n']; simpl; auto.
Qed.

Lemma shape_tabulate {A : Type} (h w : nat) (f : nat -> nat -> A) :
  shape h w (tabulate h w f).
Proof.
  unfold shape, tabulate. split.
  - now rewrite length_map, length_seq.
  - intros i Hi.
    rewrite (nth_indep _ [] (map (fun j0 => f 0%nat j0) (seq 0 w)))
      by (now rewrite length_map, length_seq).
    rewrite (map_nth (fun i0 => map (fun j0 => f i0 j0) (seq 0 w))).
    now rewrite length_map, length_seq.
Qed.

Lemma shape_grid_set {A : Type} (h w : nat) (g : Grid A) (i j : nat) (v : A) :
  shape h w g -> shape h w (grid_set g i j v).
Proof.
  intros [Hh Hw]. unfold grid_set. split.
  - now rewrite list_set_length.
  - intros i' Hi'. rewrite nth_list_set.
    destruct ((i' =? i)%nat && (i <? List.length g)%nat) eqn:E.
    + apply andb_true_iff in E. destruct E as [E _].
      apply Nat.eqb_eq in E. subst i'.
      rewrite list_set_length. now apply Hw.
    + now apply Hw.
Qed.

Lemma grid_get_set {A : Type} (d : A) (h w : nat) (g : Grid A)
  (i j i' j' : nat) (v : A) :
  shape h w g -> (i < h)%nat -> (j < w)%nat ->
  grid_get d (grid_set g i j v) i' j' =
  if (i' =? i)%nat && (j' =? j)%nat then v else grid_get d g i' j'.
Proof.
  intros [Hh Hw] Hi Hj. unfold grid_get, grid_set.
  rewrite nth_list_set.
  assert (Hlt : (i <? List.length g)%nat = true)
    by (apply Nat.ltb_lt; lia).
  rewrite Hlt, andb_true_r.
  destruct (Nat.eqb_spec i' i) as [->|Hne]; simpl; [|reflexivity].
  rewrite nth_list_set.
  assert (Hlt' : (j <? List.length (nth i g []))%nat = true)
    by (apply Nat.ltb_lt; rewrite Hw; lia).
  now rewrite Hlt', andb_true_r.
Qed.

Section ScatterProperties.
Variables h w : nat.
(** The colour written at a coordinate. *)
Variable paint : nat * nat -> Color.

Lemma combine_map_self (cs : list (nat * nat)) :
  combine cs (map paint cs) = map (fun c => (c, paint c)) cs.
Proof.
  induction cs as [|c cs IH]; simpl; [reflexivity|]. now rewrite IH.
Qed.

Lemma scatter_outside (cs : list (nat * nat)) (g : Grid Color) (i j : nat) :
  shape h w g -> Forall (inside h w) cs -> ~ In (i, j) cs ->
  getc (scatter g cs (map paint cs)) i j = getc g i j.
Proof.
  unfold scatter. rewrite combine_map_self. revert g.
  induction cs as [|c cs IH]; intros g Hg Hin Hnot; simpl; [reflexivity|].
  inversion Hin as [|? ? [Hc1 Hc2] Hin']; subst.
  rewrite IH; auto.
  - unfold getc. rewrite (grid_get_set black h w) by assumption.
    destruct (Nat.eqb_spec i (fst c)) as [E1|]; simpl; [|reflexivity].
    destruct (Nat.eqb_spec j (snd c)) as [E2|]; [|reflexivity].
    exfalso. apply Hnot. left. destruct c; simpl in *; now subst.
  - now apply shape_grid_set.
  - intros Hc. apply Hnot. now right.
Qed.

Lemma scatter_inside (cs : list (nat * nat)) (g : Grid Color) (i j : nat) :
  shape h w g -> Forall (inside h w) cs -> In (i, j) cs ->
  getc (scatter g cs (map paint cs)) i j = paint (i, j).
Proof.
  revert g.
  induction cs as [|c cs IH]; intros g Hg Hin Hmem; [contradiction|].
  inversion Hin as [|? ? [Hc1 Hc2] Hin']; subst.
  assert (Hg' : shape h w (grid_set g (fst c) (snd c) (paint c)))
    by now apply shape_grid_set.
  destruct (in_dec (fun a b : nat * nat =>
                      ltac:(decide equality; apply Nat.eq_dec)
                      : {a = b} + {a <> b}) (i, j) cs) as [Hlater|Hlater].
  - unfold scatter in *. simpl. now apply IH.
  - destruct Hmem as [->|Hmem]; [|contradiction].
    pose proof (scatter_outside cs _ i j Hg' Hin' Hlater) as E.
    unfold scatter in *. simpl in *. rewrite E.
    unfold getc. rewrite (grid_get_set black h w) by assumption.
    now rewrite !Nat.eqb_refl.
Qed.
End ScatterProperties.

(** ** Morphology *)

Lemma in_nonzero (h w : nat) (m : Grid bool) (i j : nat) :
  In (i, j) (nonzero h w m) <->
  (i < h)%nat /\ (j < w)%nat /\ getb m i j = true.
Proof.
  unfold nonzero. rewrite filter_In, in_prod_iff, !in_seq. simpl.
  intuition lia.
Qed.

Lemma nonzero_inside (h w : nat) (m : Grid bool) :
  Forall (inside h w) (nonzero h w m).
Proof.
  apply Forall_forall. intros [i j] Hin.
  apply in_nonzero in Hin. unfold inside. simpl. tauto.
Qed.

Lemma bounded_tabulate (h w : nat) (f : nat -> nat -> bool) :
  bounded h w (tabulate h w f).
Proof.
  intros i j E. apply getb_tabulate_true in E. tauto.
Qed.

Lemma above_true (m : Grid bool) (i j : nat) :
  above m i j = true -> exists i', i = S i' /\ getb m i' j = true.
Proof. destruct i as [|i']; simpl; [discriminate|eauto]. Qed.

Lemma left_of_true (m : Grid bool) (i j : nat) :
  left_of m i j = true -> exists j', j = S j' /\ getb m i j' = true.
Proof. destruct j as [|j']; simpl; [discriminate|eauto]. Qed.

(** An eroded texel and its four neighbours were all set. *)
Lemma erode1_true (h w : nat) (m : Grid bool) (i j : nat) :
  getb (erode1 h w m) i j = true ->
  getb m i j = true /\ above m i j = true /\ getb m (S i) j = true /\
  left_of m i j = true /\ getb m i (S j) = true.
Proof.
  intros E. apply getb_tabulate_true in E. destruct E as (_ & _ & E).
  repeat (apply andb_true_iff in E; destruct E as [E ?]). auto.
Qed.

Lemma erosion_shrinks (h w : nat) (n : nat) (m : Grid bool) (i j : nat) :
  getb (binary_erosion h w m n) i j = true -> getb m i j = true.
Proof.
  unfold binary_erosion. induction n as [|n IH]; simpl; [auto|].
  intros E. apply erode1_true in E. tauto.
Qed.

Lemma erosion_within_first (h w : nat) (n : nat) (m : Grid bool) (i j : nat) :
  getb (binary_erosion h w m (S n)) i j = true ->
  getb (erode1 h w m) i j = true.
Proof.
  unfold binary_erosion. rewrite Nat.iter_succ_r.
  apply (erosion_shrinks h w n (erode1 h w m)).
Qed.

(** A dilated texel grows out of some set texel. *)
Lemma dilation_origin (h w : nat) (n : nat) (m : Grid bool) (i j : nat) :
  getb (binary_dilation h w m n) i j = true ->
  exists k l, getb m k l = true.
Proof.
  unfold binary_dilation. revert i j.
  induction n as [|n IH]; simpl; intros i j E; [eauto|].
  apply getb_tabulate_true in E. destruct E as (_ & _ & E).
  repeat (apply orb_true_iff in E; destruct E as [E|E]); eauto.
  - apply above_true in E. destruct E as (? & _ & E). eauto.
  - apply left_of_true in E. destruct E as (? & _ & E). eauto.
Qed.

Lemma inpaint_region_true (h w : nat) (mask : Grid bool) (i j : nat) :
  getb (inpaint_region h w mask) i j = true ->
  (i < h)%nat /\ (j < w)%nat /\ getb mask i j = false /\
  exists k l, getb mask k l = true.
Proof.
  intros E. apply getb_tabulate_true in E. destruct E as (Hi & Hj & E).
  destruct (getb mask i j) eqn:Em; [discriminate|].
  repeat split; auto. eapply dilation_origin; eauto.
Qed.

Lemma search_region_true (h w : nat) (mask : Grid bool) (i j : nat) :
  getb (search_region h w mask) i j = true ->
  (i < h)%nat /\ (j < w)%nat /\ getb mask i j = true.
Proof.
  intros E. apply getb_tabulate_true in E. destruct E as (Hi & Hj & E).
  destruct (getb (binary_erosion h w mask 3) i j); [discriminate|auto].
Qed.

(** A valid texel outside the search band has its four neighbours
    valid. *)
Lemma outside_band_interior (h w : nat) (mask : Grid bool) (i j : nat) :
  bounded h w mask ->
  getb mask i j = true -> getb (search_region h w mask) i j = false ->
  above mask i j = true /\ getb mask (S i) j = true /\
  left_of mask i j = true /\ getb mask i (S j) = true.
Proof.
  intros Hb Em Es. destruct (Hb i j Em) as [Hi Hj].
  unfold search_region, getb in Es.
  rewrite grid_get_tabulate_in in Es by assumption.
  fold (getb (binary_erosion h w mask 3) i j) in Es.
  destruct (getb (binary_erosion h w mask 3) i j) eqn:Ee.
  - apply erosion_within_first, erode1_true in Ee. tauto.
  - unfold getb in Em. congruence.
Qed.

Lemma dist2_nonneg (p q : nat * nat) : 0 <= dist2 p q.
Proof.
  unfold dist2.
  pose proof (Z.square_nonneg (Z.of_nat (fst p) - Z.of_nat (fst q))).
  pose proof (Z.square_nonneg (Z.of_nat (snd p) - Z.of_nat (snd q))).
  lia.
Qed.

(** Every valid texel has a texel of the search band at least as close to
    a given hole: walk from the valid texel towards the hole until the
    band is met. *)
Lemma band_reaches_nearest (h w : nat) (mask : Grid bool) (p : nat * nat) :
  bounded h w mask ->
  getb mask (fst p) (snd p) = false ->
  forall (n : nat) (v : nat * nat),
    dist2 p v < Z.of_nat n ->
    getb mask (fst v) (snd v) = true ->
    exists s, getb (search_region h w mask) (fst s) (snd s) = true /\
              dist2 p s <= dist2 p v.
Proof.
  intros Hb Hp. induction n as [|n IH]; intros [vi vj] Hd Hv.
  - pose proof (dist2_nonneg p (vi, vj)). simpl in Hd. lia.
  - destruct (getb (search_region h w mask) vi vj) eqn:Es.
    + exists (vi, vj). split; [assumption|lia].
    + simpl in Hv.
      destruct (outside_band_interior h w mask vi vj Hb Hv Es)
        as (Hu & Hdn & Hl & Hr).
      destruct p as [pi pj]. simpl in Hp.
      assert (Hcloser : exists v', getb mask (fst v') (snd v') = true /\
                                   dist2 (pi, pj) v' < dist2 (pi, pj) (vi, vj)).
      { destruct (lt_eq_lt_dec pi vi) as [[Hlt|Heq]|Hgt].
        - apply above_true in Hu. destruct Hu as (vi' & -> & Hu).
          exists (vi', vj). split; [assumption|]. unfold dist2; simpl. nia.
        - subst vi.
          destruct (lt_eq_lt_dec pj vj) as [[Hlt|Heq]|Hgt].
          + apply left_of_true in Hl. destruct Hl as (vj' & -> & Hl).
            exists (pi, vj'). split; [assumption|]. unfold dist2; simpl. nia.
          + subst vj. congruence.
          + exists (pi, S vj). split; [assumption|]. unfold dist2; simpl. nia.
        - exists (S vi, vj). split; [assumption|]. unfold dist2; simpl. nia. }
      destruct Hcloser as (v' & Hv' & Hlt).
      destruct (IH v') as (s & Hs & Hle); [lia|assumption|].
      exists s. split; [assumption|lia].
Qed.

(** ** The reference nearest-neighbour query *)

Lemma nearest_from_spec (q : nat * nat) (pts pre : list (nat * nat))
  (best : nat) (pb : nat * nat) :
  nth_error (pre ++ pts) best = Some pb ->
  (forall p', In p' pre -> dist2 q pb <= dist2 q p') ->
  exists p,
    nth_error (pre ++ pts)
      (nearest_from q pts (List.length pre) best (dist2 q pb)) = Some p /\
    forall p', In p' (pre ++ pts) -> dist2 q p <= dist2 q p'.
Proof.
  revert pre best pb. induction pts as [|x pts IH]; intros pre best pb Hb Hmin.
  - simpl. exists pb. split; [assumption|].
    rewrite app_nil_r. assumption.
  - simpl. replace (pre ++ x :: pts) with ((pre ++ [x]) ++ pts) in *
      by (now rewrite <- app_assoc).
    replace (S (List.length pre)) with (List.length (pre ++ [x]))
      by (rewrite length_app; simpl; lia).
    destruct (Z.ltb_spec (dist2 q x) (dist2 q pb)) as [Hlt|Hge].
    + apply IH.
      * rewrite <- app_assoc. simpl. rewrite nth_error_app2 by lia.
        now rewrite Nat.sub_diag.
      * intros p' Hin. apply in_app_iff in Hin.
        destruct Hin as [Hin|[->|[]]]; [|lia].
        specialize (Hmin p' Hin). lia.
    + apply IH; [assumption|].
      intros p' Hin. apply in_app_iff in Hin.
      destruct Hin as [Hin|[->|[]]]; [auto|lia].
Qed.

Lemma scan_kneighbors_exact : exact_knn scan_kneighbors.
Proof.
  intros [|p0 pts] q Hne; [congruence|]. simpl.
  apply (nearest_from_spec q pts [p0] 0 p0); [reflexivity|].
  intros p' [->|[]]. lia.
Qed.

(** ** Hole filling *)

Section InpaintProperties.
Variable kn : list (nat * nat) -> nat * nat -> nat.
Hypothesis kn_exact : exact_knn kn.
Variables h w : nat.

Lemma knn_donor (pts : list (nat * nat)) (q : nat * nat) :
  pts <> [] ->
  nth_error pts (kn pts q) = Some (donor_of kn pts q) /\
  forall p', In p' pts -> dist2 q (donor_of kn pts q) <= dist2 q p'.
Proof.
  intros Hne. destruct (kn_exact pts q Hne) as (p & Hp & Hmin).
  unfold donor_of. rewrite (nth_error_nth _ _ _ Hp). auto.
Qed.

Lemma donors_found (pts cs : list (nat * nat)) :
  pts <> [] ->
  mapM (py_index pts) (map (kn pts) cs) = OK (map (donor_of kn pts) cs).
Proof.
  intros Hne. induction cs as [|c cs IH]; simpl; [reflexivity|].
  unfold py_index at 1.
  rewrite (proj1 (knn_donor pts c Hne)). simpl.
  now rewrite IH.
Qed.

(** With donors and holes at hand the step returns, and writes to every
    hole the colour of the donor designated for it. *)
Lemma inpaint_runs (mask : Grid bool) (albedo : Grid Color) :
  let sc := nonzero h w (search_region h w mask) in
  let ic := nonzero h w (inpaint_region h w mask) in
  sc <> [] -> ic <> [] ->
  inpaint kn h w mask albedo =
  OK (scatter albedo ic
        (map (fun c => getc albedo (fst (donor_of kn sc c))
                         (snd (donor_of kn sc c))) ic)).
Proof.
  intros sc ic Hsc Hic. unfold inpaint. fold sc ic.
  destruct sc as [|s0 sc'] eqn:Esc; [congruence|].
  destruct ic as [|c0 ic'] eqn:Eic; [congruence|].
  cbn [knn_fit knn_kneighbors bind].
  rewrite donors_found by discriminate.
  cbn [bind]. now rewrite map_map.
Qed.

Lemma inpaint_nearest (mask : Grid bool) (albedo : Grid Color) (i j : nat) :
  bounded h w mask -> shape h w albedo ->
  getb (inpaint_region h w mask) i j = true ->
  exists filled di dj,
    inpaint kn h w mask albedo = OK filled /\
    getb (search_region h w mask) di dj = true /\
    getc filled i j = getc albedo di dj /\
    getc filled di dj = getc albedo di dj /\
    forall k l, getb mask k l = true ->
                dist2 (i, j) (di, dj) <= dist2 (i, j) (k, l).
Proof.
  intros Hb Hs Hole.
  pose proof Hole as Hole'.
  apply inpaint_region_true in Hole'.
  destruct Hole' as (Hi & Hj & Hinvalid & k0 & l0 & Hvalid0).
  set (sc := nonzero h w (search_region h w mask)).
  set (ic := nonzero h w (inpaint_region h w mask)).
  assert (Hic : In (i, j) ic) by (apply in_nonzero; auto).
  assert (Hsc : sc <> []).
  { destruct (band_reaches_nearest h w mask (i, j) Hb Hinvalid
                (S (Z.to_nat (dist2 (i, j) (k0, l0)))) (k0, l0))
      as ([si sj] & Hs0 & _).
    - pose proof (dist2_nonneg (i, j) (k0, l0)). lia.
    - assumption.
    - simpl in Hs0. intros E.
      assert (Hin : In (si, sj) sc).
      { apply in_nonzero. apply search_region_true in Hs0 as Hs1.
        tauto. }
      rewrite E in Hin. contradiction. }
  assert (Hic' : ic <> []) by (intros E; rewrite E in Hic; contradiction).
  destruct (knn_donor sc (i, j) Hsc) as [Hnth Hmin].
  destruct (donor_of kn sc (i, j)) as [di dj] eqn:Ed.
  assert (Hdin : In (di, dj) sc) by (eapply nth_error_In; eauto).
  apply in_nonzero in Hdin. destruct Hdin as (Hdi & Hdj & Hband).
  pose proof (search_region_true h w mask di dj Hband) as (_ & _ & Hdvalid).
  exists (scatter albedo ic
            (map (fun c => getc albedo (fst (donor_of kn sc c))
                             (snd (donor_of kn sc c))) ic)), di, dj.
  split; [now apply inpaint_runs|].
  split; [assumption|].
  split; [|split].
  - rewrite (scatter_inside h w _ ic albedo i j Hs
               (nonzero_inside _ _ _) Hic).
    now rewrite Ed.
  - apply (scatter_outside h w _ ic albedo di dj Hs (nonzero_inside _ _ _)).
    intros Hin. apply in_nonzero in Hin.
    destruct Hin as (_ & _ & Hin).
    apply inpaint_region_true in Hin. destruct Hin as (_ & _ & Hin & _).
    congruence.
  - intros k l Hkl.
    destruct (band_reaches_nearest h w mask (i, j) Hb Hinvalid
                (S (Z.to_nat (dist2 (i, j) (k, l)))) (k, l))
      as ([si sj] & Hs0 & Hle).
    + pose proof (dist2_nonneg (i, j) (k, l)). lia.
    + assumption.
    + simpl in Hs0.
      assert (Hin : In (si, sj) sc).
      { apply in_nonzero. apply search_region_true in Hs0 as Hs1. tauto. }
      specialize (Hmin _ Hin). lia.
Qed.

(** A mask with a valid texel has a texel in its search band. *)
Lemma band_of_valid (mask : Grid bool) (k l : nat) :
  bounded h w mask -> getb mask k l = true ->
  nonzero h w (search_region h w mask) <> [].
Proof.
  intros Hb Hv.
  assert (Hout : getb mask (fst (h, 0%nat)) (snd (h, 0%nat)) = false).
  { simpl. destruct (getb mask h 0) eqn:E; [|reflexivity].
    apply Hb in E. lia. }
  destruct (band_reaches_nearest h w mask (h, 0%nat) Hb Hout
              (S (Z.to_nat (dist2 (h, 0%nat) (k, l)))) (k, l))
    as ([si sj] & Hs0 & _).
  - pose proof (dist2_nonneg (h, 0%nat) (k, l)). lia.
  - assumption.
  - simpl in Hs0. intros E.
    assert (Hin : In (si, sj) (nonzero h w (search_region h w mask))).
    { apply in_nonzero. apply search_region_true in Hs0 as Hs1. tauto. }
    rewrite E in Hin. contradiction.
Qed.
End InpaintProperties.

Lemma valid_mask_true (h w : nat) (cnt : Grid Q) (i j : nat) :
  getb (valid_mask h w cnt) i j = true <->
  (i < h)%nat /\ (j < w)%nat /\ (0 < getq cnt i j)%Q.
Proof.
  split.
  - intros E. apply getb_tabulate_true in E.
    destruct E as (Hi & Hj & E). apply Qltb_lt in E. auto.
  - intros (Hi & Hj & E). unfold valid_mask, getb.
    rewrite grid_get_tabulate_in by assumption. now apply Qltb_lt.
Qed.

Lemma valid_mask_false (h w : nat) (cnt : Grid Q) (i j : nat) :
  (i < h)%nat -> (j < w)%nat ->
  getb (valid_mask h w cnt) i j = false -> (getq cnt i j <= 0)%Q.
Proof.
  intros Hi Hj E. unfold valid_mask, getb in E.
  rewrite grid_get_tabulate_in in E by assumption. now apply Qltb_ge.
Qed.

Lemma normalize_valid (h w : nat) (albedo : Grid Color) (cnt : Grid Q)
  (i j : nat) :
  getb (valid_mask h w cnt) i j = true ->
  getc (normalize h w albedo cnt) i j
    = color_div (getc albedo i j) (getq cnt i j).
Proof.
  intros E. pose proof E as E'. apply valid_mask_true in E'.
  destruct E' as (Hi & Hj & _). unfold normalize, getc at 1.
  rewrite grid_get_tabulate_in by assumption. now rewrite E.
Qed.

(** C7: for an exact nearest-neighbour query, every texel of the fill
    frontier is a hole (its count is not positive) and ends with the
    colour of a valid texel [(di, dj)] that no valid texel beats in
    Euclidean distance; that donor keeps its own normalised colour. *)
Theorem holes_take_nearest_donor
  (kn : list (nat * nat) -> nat * nat -> nat) (h w : nat)
  (albedo : Grid Color) (cnt : Grid Q) (i j : nat) :
  exact_knn kn ->
  getb (inpaint_region h w (valid_mask h w cnt)) i j = true ->
  exists filled di dj,
    finish_texture kn h w (albedo, cnt) = OK filled /\
    (getq cnt i j <= 0)%Q /\
    (di < h)%nat /\ (dj < w)%nat /\ (0 < getq cnt di dj)%Q /\
    getc filled i j = getc filled di dj /\
    getc filled di dj = color_div (getc albedo di dj) (getq cnt di dj) /\
    forall k l, (k < h)%nat -> (l < w)%nat -> (0 < getq cnt k l)%Q ->
                dist2 (i, j) (di, dj) <= dist2 (i, j) (k, l).
Proof.
  intros Hkn Hole.
  destruct (inpaint_nearest kn Hkn h w (valid_mask h w cnt)
              (normalize h w albedo cnt) i j)
    as (filled & di & dj & Hrun & Hband & Hcol & Hkeep & Hmin).
  - apply bounded_tabulate.
  - apply shape_tabulate.
  - assumption.
  - apply inpaint_region_true in Hole. destruct Hole as (Hi & Hj & Hinv & _).
    apply search_region_true in Hband. destruct Hband as (Hdi & Hdj & Hdv).
    exists filled, di, dj. simpl.
    split; [assumption|].
    split; [now apply (valid_mask_false h w)|].
    pose proof (proj1 (valid_mask_true h w cnt di dj) Hdv) as (_ & _ & Hpos).
    repeat split; auto.
    + congruence.
    + rewrite Hkeep. now apply normalize_valid.
    + intros k l Hk Hl Hkl. apply Hmin. apply valid_mask_true. auto.
Qed.

Lemma holes_take_nearest_donor_witness :
  exists filled di dj,
    finish_texture scan_kneighbors 1 4 (row_albedo, row_cnt) = OK filled /\
    (getq row_cnt 0 1 <= 0)%Q /\
    (di < 1)%nat /\ (dj < 4)%nat /\ (0 < getq row_cnt di dj)%Q /\
    getc filled 0 1 = getc filled di dj /\
    getc filled di dj
      = color_div (getc row_albedo di dj) (getq row_cnt di dj) /\
    forall k l, (k < 1)%nat -> (l < 4)%nat -> (0 < getq row_cnt k l)%Q ->
                dist2 (0%nat, 1%nat) (di, dj) <= dist2 (0%nat, 1%nat) (k, l).
Proof.
  exact (holes_take_nearest_donor scan_kneighbors 1 4 row_albedo row_cnt 0 1
           scan_kneighbors_exact eq_refl).
Defined.

(** The scenario of the specification: in a row whose texels 0 and 3 are
    valid, the hole at 1 has a donor at distance 1 and another at
    distance 2, and takes the colour of the first; and so does, mirrored,
    the hole at 2.  This holds for every exact query. *)
Lemma hole_between_two_donors
  (kn : list (nat * nat) -> nat * nat -> nat) :
  exact_knn kn ->
  exists filled,
    finish_texture kn 1 4 (row_albedo, row_cnt) = OK filled /\
    getc filled 0 1 = (1, 0, 0)%Q /\ getc filled 0 2 = (0, 0, 1)%Q.
Proof.
  intros Hkn.
  destruct (inpaint_nearest kn Hkn 1 4 (valid_mask 1 4 row_cnt)
              (normalize 1 4 row_albedo row_cnt) 0 1
              (bounded_tabulate _ _ _) (shape_tabulate _ _ _) eq_refl)
    as (filled & di & dj & Hrun & Hband & Hcol & _ & Hmin).
  destruct (inpaint_nearest kn Hkn 1 4 (valid_mask 1 4 row_cnt)
              (normalize 1 4 row_albedo row_cnt) 0 2
              (bounded_tabulate _ _ _) (shape_tabulate _ _ _) eq_refl)
    as (filled' & di' & dj' & Hrun' & Hband' & Hcol' & _ & Hmin').
  rewrite Hrun in Hrun'. inversion Hrun'; subst filled'. clear Hrun'.
  exists filled. split; [exact Hrun|].
  apply search_region_true in Hband, Hband'.
  destruct Hband as (Hdi & Hdj & Hv), Hband' as (Hdi' & Hdj' & Hv').
  specialize (Hmin 0%nat 0%nat eq_refl).
  specialize (Hmin' 0%nat 3%nat eq_refl).
  assert (di = 0%nat) by lia. assert (di' = 0%nat) by lia. subst di di'.
  rewrite Hcol, Hcol'. split.
  - destruct dj as [|[|[|[|dj]]]]; try lia; try discriminate Hv;
      try reflexivity.
    unfold dist2 in Hmin; simpl in Hmin; lia.
  - destruct dj' as [|[|[|[|dj']]]]; try lia; try discriminate Hv';
      try reflexivity.
    unfold dist2 in Hmin'; simpl in Hmin'; lia.
Qed.

(** C8, as the code has it: when the donor region is empty, which is
    when no texel of the atlas is valid, fitting the nearest-neighbour
    index raises [ValueError]; hole filling does not return an atlas. *)
Theorem empty_donor_region_raises
  (kn : list (nat * nat) -> nat * nat -> nat) (h w : nat)
  (albedo : Grid Color) (cnt : Grid Q) :
  nonzero h w (search_region h w (valid_mask h w cnt)) = [] ->
  finish_texture kn h w (albedo, cnt) = Raise ValueError /\
  forall i j, (i < h)%nat -> (j < w)%nat -> (getq cnt i j <= 0)%Q.
Proof.
  intros Hempty. split.
  - unfold finish_texture, inpaint. now rewrite Hempty.
  - intros i j Hi Hj. apply (valid_mask_false h w); auto.
    destruct (getb (valid_mask h w cnt) i j) eqn:E; [|reflexivity].
    exfalso.
    apply (band_of_valid h w (valid_mask h w cnt) i j
             (bounded_tabulate _ _ _) E Hempty).
Qed.

Lemma empty_donor_region_raises_witness :
  finish_texture scan_kneighbors 1 1 (blank_albedo, blank_cnt)
    = Raise ValueError /\
  forall i j, (i < 1)%nat -> (j < 1)%nat -> (getq blank_cnt i j <= 0)%Q.
Proof.
  exact (empty_donor_region_raises scan_kneighbors 1 1 blank_albedo blank_cnt
           eq_refl).
Defined.

(** C8 as stated fails on the atlas of one unwritten texel: the donor
    region is empty, and the step raises instead of returning the atlas
    unchanged. *)
Lemma empty_donor_region_is_no_noop :
  nonzero 1 1 (search_region 1 1 (valid_mask 1 1 blank_cnt)) = [] /\
  ~ (exists filled,
       finish_texture scan_kneighbors 1 1 (blank_albedo, blank_cnt)
         = OK filled).
Proof.
  split; [reflexivity|]. intros [filled E]. discriminate E.
Qed.

(** ** Loops that may raise *)

Lemma foldM_app {A B : Type} (f : A -> B -> res A) (xs ys : list B) (a : A) :
  foldM f (xs ++ ys) a = bind (foldM f xs a) (foldM f ys).
Proof.
  revert a. induction xs as [|x xs IH]; intros a; simpl; [reflexivity|].
  destruct (f a x); simpl; auto.
Qed.

Lemma foldM_invariant {A B : Type} (P : A -> Prop) (f : A -> B -> res A)
  (xs : list B) (a a' : A) :
  (forall a x a', In x xs -> P a -> f a x = OK a' -> P a') ->
  P a -> foldM f xs a = OK a' -> P a'.
Proof.
  revert a. induction xs as [|x xs IH]; simpl; intros a Hstep Ha E.
  - now inversion E; subst.
  - inv_bind E. eapply IH; [| |exact E]; eauto.
Qed.

Lemma foldM_OK_each {A B : Type} (f : A -> B -> res A)
  (xs : list B) (a a' : A) (x : B) :
  foldM f xs a = OK a' -> In x xs -> exists a1 a2, f a1 x = OK a2.
Proof.
  revert a. induction xs as [|x0 xs IH]; simpl; intros a E Hin; [tauto|].
  inv_bind E. destruct Hin as [->|Hin]; eauto.
Qed.

Lemma foldM_raise_only {A B : Type} (e : exn) (f : A -> B -> res A)
  (xs : list B) (a : A) (e' : exn) :
  (forall a x e', f a x = Raise e' -> e' = e) ->
  foldM f xs a = Raise e' -> e' = e.
Proof.
  intros Hf. revert a. induction xs as [|x xs IH]; simpl; intros a E.
  - discriminate.
  - destruct (f a x) eqn:Ef; simpl in E; eauto.
    inversion E; subst. eauto.
Qed.

Lemma foldM_total {A B : Type} (f : A -> B -> res A) (xs : list B) (a : A) :
  (forall a x, In x xs -> exists a', f a x = OK a') ->
  exists a', foldM f xs a = OK a'.
Proof.
  revert a. induction xs as [|x xs IH]; simpl; intros a Hf; [eauto|].
  destruct (Hf a x (or_introl eq_refl)) as [a1 ->]. simpl.
  apply IH. intros; apply Hf; now right.
Qed.

(** ** Losses *)

Lemma sq_err_self (x : Tensor) : (sq_err x x == 0)%Q.
Proof.
  induction x as [|a x IH]; simpl; [reflexivity|]. rewrite IH. ring.
Qed.

(** A tensor is at distance zero from itself. *)
Lemma mse_loss_self (x : Tensor) :
  exists l, mse_loss x x = OK l /\ (l == 0)%Q.
Proof.
  unfold mse_loss. rewrite Nat.eqb_refl. eexists. split; [reflexivity|].
  unfold Qdiv. rewrite sq_err_self. ring.
Qed.

Section TrainProperties.
Context {B : Backend}.

(** *** The multi-view loop *)

Lemma multi_view_body_OK (g : GUI) (G : Gaussians) (r : Q)
  (acc acc' : LossOut) (i : nat) :
  multi_view_body g G r acc i = OK acc' ->
  exists c,
    nth_error (cameras g) i = Some c /\
    (i < List.length (multiImagesTorch g))%nat /\
    (i < List.length (multiMasksTorch g))%nat /\
    (fst acc' == fst acc)%Q /\
    snd acc' = Some (render G c false).
Proof.
  unfold multi_view_body, py_index. intros E.
  destruct (nth_error (cameras g) i) as [c|] eqn:Ec; [|discriminate].
  destruct (nth_error (multiImagesTorch g) i) as [t|] eqn:Et;
    [|discriminate].
  destruct (nth_error (multiMasksTorch g) i) as [m|] eqn:Em;
    [|simpl in E; destruct (mse_loss t t); discriminate].
  simpl in E.
  destruct (mse_loss_self t) as (l & El & Hl).
  destruct (mse_loss_self m) as (lm & Elm & Hlm).
  rewrite El in E. simpl in E. rewrite Elm in E. simpl in E.
  inversion E; subst. simpl.
  exists c. repeat split.
  - apply nth_error_Some. congruence.
  - apply nth_error_Some. congruence.
  - rewrite Hl, Hlm. ring.
Qed.

Lemma multi_view_body_total (g : GUI) (G : Gaussians) (r : Q)
  (acc : LossOut) (i : nat) :
  (i < List.length (cameras g))%nat ->
  (i < List.length (multiImagesTorch g))%nat ->
  (i < List.length (multiMasksTorch g))%nat ->
  exists acc', multi_view_body g G r acc i = OK acc'.
Proof.
  intros Hc Ht Hm. unfold multi_view_body.
  destruct (py_index_OK _ _ Hc) as [c ->].
  destruct (py_index_OK _ _ Ht) as [t ->].
  destruct (py_index_OK _ _ Hm) as [m ->]. simpl.
  destruct (mse_loss_self t) as (l & -> & _).
  destruct (mse_loss_self m) as (lm & -> & _). simpl. eauto.
Qed.

Lemma multi_view_body_raises (g : GUI) (G : Gaussians) (r : Q)
  (acc : LossOut) (i : nat) (e : exn) :
  multi_view_body g G r acc i = Raise e -> e = IndexError.
Proof.
  unfold multi_view_body, py_index. intros E.
  destruct (nth_error (cameras g) i); [|now inversion E].
  destruct (nth_error (multiImagesTorch g) i) as [t|]; [|now inversion E].
  simpl in E. destruct (mse_loss_self t) as (l & El & _).
  rewrite El in E. simpl in E.
  destruct (nth_error (multiMasksTorch g) i) as [m|]; [|now inversion E].
  simpl in E. destruct (mse_loss_self m) as (lm & Elm & _).
  rewrite Elm in E. discriminate.
Qed.

(** The loop leaves the loss where it found it, whatever the renderer
    returned for the sixteen cameras. *)
Lemma multi_view_adds_nothing (g : GUI) (G : Gaussians) (r : Q)
  (acc acc' : LossOut) :
  multi_view g G r acc = OK acc' -> (fst acc' == fst acc)%Q.
Proof.
  unfold multi_view.
  apply (foldM_invariant (fun a => fst a == fst acc)%Q);
    [|reflexivity].
  intros a i a' _ Ha E. apply multi_view_body_OK in E.
  destruct E as (_ & _ & _ & _ & E & _). now rewrite E.
Qed.

Lemma multi_view_OK_sixteen (g : GUI) (G : Gaussians) (r : Q)
  (acc acc' : LossOut) :
  multi_view g G r acc = OK acc' ->
  (16 <= List.length (cameras g))%nat /\
  (16 <= List.length (multiImagesTorch g))%nat /\
  (16 <= List.length (multiMasksTorch g))%nat.
Proof.
  intros E.
  destruct (foldM_OK_each _ _ _ _ 15%nat E) as (a1 & a2 & E15).
  - apply in_seq. lia.
  - apply multi_view_body_OK in E15.
    destruct E15 as (c & Hc & Ht & Hm & _).
    assert (15 < List.length (cameras g))%nat
      by (apply nth_error_Some; congruence).
    lia.
Qed.

Lemma multi_view_total (g : GUI) (G : Gaussians) (r : Q) (acc : LossOut) :
  (16 <= List.length (cameras g))%nat ->
  (16 <= List.length (multiImagesTorch g))%nat ->
  (16 <= List.length (multiMasksTorch g))%nat ->
  exists acc', multi_view g G r acc = OK acc'.
Proof.
  intros Hc Ht Hm. apply foldM_total.
  intros a i Hi. apply in_seq in Hi.
  apply multi_view_body_total; lia.
Qed.

Lemma multi_view_short (g : GUI) (G : Gaussians) (r : Q) (acc : LossOut) :
  (List.length (cameras g) < 16)%nat ->
  multi_view g G r acc = Raise IndexError.
Proof.
  intros Hc. destruct (multi_view g G r acc) as [acc'|e] eqn:E.
  - apply multi_view_OK_sixteen in E. lia.
  - f_equal. unfold multi_view in E.
    eapply (foldM_raise_only IndexError); [|exact E].
    intros a i e'. apply multi_view_body_raises.
Qed.
End TrainProperties.

(** C1, on an object prepared with sixteen cameras and sixteen black
    reference tiles, under a renderer whose images and alphas are white:
    the multi-view loop of the code adds 0 to the loss, where the sum of
    the specification, over the rendered image and alpha of each camera, adds 16
    at step ratio 1/2 and unit weights.  The loop compares each tile with
    itself and never reads the render. *)
Theorem multi_view_loss_ignores_render :
  (exists acc, multi_view toy_trained (gaussians toy_trained) (1 # 2)
                 (0%Q, None) = OK acc /\ (fst acc == 0)%Q) /\
  (exists acc, spec_multi_view toy_trained (gaussians toy_trained) (1 # 2)
                 (0%Q, None) = OK acc /\ (fst acc == 16)%Q).
Proof.
  split; eexists; (split; [reflexivity|]); reflexivity.
Qed.

Section StepProperties.
Context {B : Backend}.

(** *** prepare_train *)

Lemma prepare_train_OK (g g' : GUI) (azs : list Q) (poses : list Pose)
  (img : Image) :
  prepare_train g azs poses img = OK g' ->
  opt g' = opt g /\
  cameras g' = archive_cameras g azs poses /\
  List.length (multiImagesTorch g') = 16%nat /\
  List.length (multiMasksTorch g') = 16%nat /\
  enable_sd g'
    = Qltb 0 (lambda_sd (opt g)) && negb (String.eqb (prompt g) "") /\
  enable_zero123 g'
    = Qltb 0 (lambda_zero123 (opt g))
      && match input_img g with Some _ => true | None => false end /\
  (enable_sd g' = true -> exists m, guidance_sd g' = Some m) /\
  (enable_zero123 g' = true -> exists m, guidance_zero123 g' = Some m).
Proof.
  unfold prepare_train. intros E.
  inv_bind_as E mm Eload. destruct mm as [multiImages multiMasks].
  inv_bind_as E imgsT Ea0. inv_bind_as E masksT Ea1.
  inv_bind_as E it Ea2. destruct it as [img_t mask_t].
  inv_bind_as E sd' Ea3. inv_bind_as E z123' Ea4.
  inversion E; subst g'; clear E.
  cbn [opt cameras multiImagesTorch multiMasksTorch enable_sd
       enable_zero123 guidance_sd guidance_zero123].
  apply mapM_length in Ea0, Ea1. rewrite length_seq in Ea0, Ea1.
  repeat split; auto.
  - intros En. rewrite En in Ea3.
    destruct (guidance_sd g); inversion Ea3; eauto.
  - intros En. rewrite En in Ea4.
    destruct (guidance_zero123 g), img_t; inversion Ea4; eauto.
Qed.

Lemma archive_cameras_length (g : GUI) (azs : list Q) (poses : list Pose) :
  List.length (archive_cameras g azs poses)
    = Nat.min (List.length azs) (List.length poses).
Proof.
  unfold archive_cameras.
  now rewrite length_map, length_seq, length_combine.
Qed.

(** *** Guidance *)

Lemma guidance_split (g : GUI) (r : Q) (b : Batch) (loss loss' : Q) :
  guidance g r b loss = OK loss' ->
  (enable_sd g = true -> exists m, guidance_sd g = Some m) /\
  (enable_zero123 g = true -> exists m, guidance_zero123 g = Some m) /\
  (loss' == loss + sd_contribution g r b + zero123_contribution g r b)%Q.
Proof.
  unfold guidance, sd_term, zero123_term, sd_contribution,
    zero123_contribution.
  intros E. inv_bind_as E l1 Esd.
  destruct (enable_sd g), (guidance_sd g) as [m|];
    destruct (enable_zero123 g), (guidance_zero123 g) as [z|];
    try discriminate; inversion Esd; inversion E; subst;
    (split; [intros; eauto; discriminate|]);
    (split; [intros; eauto; discriminate|]); ring.
Qed.

(** C2, as the code has it: the loss of a step is the loss of the
    known-view and multi-view part, plus, when the SD term is enabled,
    [lambda_sd] times the value of [guidance_sd.train_step(images,
    step_ratio)], plus, when the zero123 term is enabled,
    [lambda_zero123] times the value of
    [guidance_zero123.train_step(images, vers, hors, radii,
    step_ratio)].  The step ratio is an argument of the guidance models,
    not a factor of the terms. *)
Theorem guidance_terms_weighted (g : GUI) (G : Gaussians) (r : Q)
  (draws : nat -> Draw) (loss : Q) (b : Batch) :
  compose_loss g G r draws = OK (loss, b) ->
  exists acc,
    bind (known_view g G r (0%Q, None)) (multi_view g G r) = OK acc /\
    novel_batch g G r draws (snd acc) = OK b /\
    (enable_sd g = true -> exists m, guidance_sd g = Some m) /\
    (enable_zero123 g = true -> exists m, guidance_zero123 g = Some m) /\
    (loss == fst acc + sd_contribution g r b
                     + zero123_contribution g r b)%Q.
Proof.
  unfold compose_loss. intros E.
  inv_bind_as E acc0 Eknown. inv_bind_as E acc Emv.
  inv_bind_as E b0 Ebatch. inv_bind_as E l Eguid.
  inversion E; subst; clear E.
  exists acc. rewrite Eknown. simpl.
  destruct (guidance_split _ _ _ _ _ Eguid) as (Hsd & Hz & Hl).
  auto.
Qed.

(** C5: after [prepare_train], a guidance term is enabled exactly when
    its weight is positive and its conditioning is there (a prompt that
    is not the empty string, an input image); an enabled term has its
    model loaded; a disabled term hands the loss on unchanged and does
    not raise. *)
Theorem guidance_gating (g g' : GUI) (azs : list Q) (poses : list Pose)
  (img : Image) :
  prepare_train g azs poses img = OK g' ->
  (enable_sd g' = true <->
     (0 < lambda_sd (opt g))%Q /\ prompt g <> ""%string) /\
  (enable_zero123 g' = true <->
     (0 < lambda_zero123 (opt g))%Q /\ input_img g <> None) /\
  (enable_sd g' = true -> exists m, guidance_sd g' = Some m) /\
  (enable_zero123 g' = true -> exists m, guidance_zero123 g' = Some m) /\
  (enable_sd g' = false ->
     forall r b loss, sd_term g' r b loss = OK loss) /\
  (enable_zero123 g' = false ->
     forall r b loss, zero123_term g' r b loss = OK loss).
Proof.
  intros E. apply prepare_train_OK in E.
  destruct E as (_ & _ & _ & _ & Esd & Ez & Hsd & Hz).
  split; [|split; [|split; [|split; [|split]]]]; try assumption.
  - rewrite Esd, andb_true_iff, negb_true_iff, Qltb_lt, String.eqb_neq.
    reflexivity.
  - rewrite Ez, andb_true_iff, Qltb_lt.
    destruct (input_img g); intuition congruence.
  - intros En r b loss. unfold sd_term. now rewrite En.
  - intros En r b loss. unfold zero123_term. now rewrite En.
Qed.
End StepProperties.

Lemma guidance_terms_weighted_witness :
  exists (loss : Q) (b : Batch) (acc : LossOut),
    compose_loss toy_trained (gaussians toy_trained) (1 # 2) toy_draws
      = OK (loss, b) /\
    (loss == fst acc + sd_contribution toy_trained (1 # 2) b
                     + zero123_contribution toy_trained (1 # 2) b)%Q.
Proof.
  destruct (@guidance_terms_weighted toy toy_trained (gaussians toy_trained)
              (1 # 2) toy_draws _ _ eq_refl)
    as (acc & _ & _ & _ & _ & Hl).
  do 3 eexists. split; [reflexivity|exact Hl].
Defined.

(** C2 as stated fails at step ratio 1/2 with [lambda_sd = 1] and a
    guidance model whose loss is 1: the SD term adds 1 to the loss, not
    1/2. *)
Lemma sd_term_not_scaled_by_step_ratio :
  exists l,
    sd_term toy_trained (1 # 2) toy_batch 0 = OK l /\
    ~ (l == 0 + lambda_sd (opt toy_trained) * (1 # 2)
                * @sd_train_step toy tt (images toy_batch) (1 # 2))%Q.
Proof.
  eexists. split; [reflexivity|]. discriminate.
Qed.

Lemma guidance_gating_witness :
  exists g' : @GUI toy,
    prepare_train toy_init toy_azs toy_poses narrow_image = OK g' /\
    (enable_sd g' = true <->
       (0 < lambda_sd (opt toy_init))%Q /\ prompt toy_init <> ""%string) /\
    (enable_zero123 g' = false ->
       forall r b loss, zero123_term g' r b loss = OK loss).
Proof.
  destruct (prepare_train toy_init toy_azs toy_poses narrow_image)
    as [g'|e] eqn:E; [|vm_compute in E; discriminate E].
  exists g'. split; [reflexivity|].
  destruct (@guidance_gating toy toy_init g' toy_azs toy_poses narrow_image E)
    as (Hsd & _ & _ & _ & _ & Hz).
  split; assumption.
Defined.

Section DensifyProperties.
Context {B : Backend}.

(** After the batch loop the variable [out] holds the render of the
    last sample, whatever it held before. *)
Lemma novel_batch_last (g : GUI) (G : Gaussians) (r : Q)
  (draws : nat -> Draw) (out : option RenderOut) (b : Batch) :
  novel_batch g G r draws out = OK b ->
  exists n ver hor c inv,
    Z.to_nat (batch_size (opt g)) = S n /\
    novel_sample g r (draws n) = OK (ver, hor, 0, c, inv) /\
    b_out b = Some (render G c inv).
Proof.
  unfold novel_batch. intros E. inv_bind_as E b0 Eloop.
  destruct (Z.to_nat (batch_size (opt g))) as [|n] eqn:En.
  - simpl in Eloop. inversion Eloop; subst b0. discriminate E.
  - rewrite seq_S, foldM_app in Eloop. inv_bind_as Eloop b1 Einit.
    cbn [foldM Nat.add] in Eloop. inv_bind_as Eloop b2 Elast.
    unfold novel_body in Elast.
    destruct (novel_sample_total g r (draws n))
      as (ver & hor & c & inv & Es & _).
    rewrite Es in Elast. simpl in Elast.
    inversion Elast; subst b2. inversion Eloop; subst b0.
    destruct (images b1); simpl in E; inversion E; subst b;
      exists n, ver, hor, c, inv; auto.
Qed.

(** C9: in a step that completes inside the densification window, the
    batch has a last sample, and the maximal radii and the
    densification statistics are updated from the visibility filter,
    the radii and the view-space points of the render of that sample;
    the cloud after the step is the result of the two interval tests on
    the cloud so updated. *)
Theorem densify_reads_last_novel_sample (g g' : GUI) (draws : nat -> Draw)
  (loss : Q) :
  train_iter g draws = OK (g', loss) ->
  in_density_window (opt g) (step g + 1) = true ->
  exists r n ver hor c inv m,
    step_ratio (step g + 1) (iters (opt g)) = OK r /\
    Z.to_nat (batch_size (opt g)) = S n /\
    novel_sample g r (draws n) = OK (ver, hor, 0, c, inv) /\
    let G := update_learning_rate (gaussians g) (step g + 1) in
    let out := render G c inv in
    let G1 := optimize G loss in
    masked_max (max_radii2D G1) (visibility_filter out) (radii out)
      = OK m /\
    interval_actions (opt g) (step g + 1)
      (add_densification_stats (set_max_radii2D G1 m)
         (viewspace_points out) (visibility_filter out))
      = OK (gaussians g').
Proof.
  unfold train_iter. intros E Hwin.
  inv_bind_as E r Er. inv_bind_as E lb Eloss. destruct lb as [l b].
  inv_bind_as E G2 Edens. inversion E; subst; clear E.
  unfold compose_loss in Eloss.
  inv_bind_as Eloss acc0 Eknown. inv_bind_as Eloss acc Emv.
  inv_bind_as Eloss b0 Ebatch. inv_bind_as Eloss l0 Eguid.
  inversion Eloss; subst; clear Eloss.
  apply novel_batch_last in Ebatch.
  destruct Ebatch as (n & ver & hor & c & inv & Hn & Hs & Hout).
  unfold densify in Edens. rewrite Hwin, Hout in Edens.
  inv_bind_as Edens G1 Estats. unfold record_stats in Estats.
  inv_bind_as Estats m Emax.
  inversion Estats; subst; clear Estats.
  exists r, n, ver, hor, c, inv, m. simpl. auto.
Qed.

(** C10, as the code has it: a successful [prepare_train] leaves
    sixteen reference images and sixteen masks whatever the width of
    the multi-view image, and one camera per entry of the pose archive;
    with fewer than sixteen cameras the multi-view loop of every step
    raises an index error and no step completes; with sixteen or more
    the loop completes. *)
Theorem multi_view_needs_sixteen_cameras (g g' : GUI) (azs : list Q)
  (poses : list Pose) (img : Image) :
  prepare_train g azs poses img = OK g' ->
  List.length (multiImagesTorch g') = 16%nat /\
  List.length (multiMasksTorch g') = 16%nat /\
  List.length (cameras g')
    = Nat.min (List.length azs) (List.length poses) /\
  ((Nat.min (List.length azs) (List.length poses) < 16)%nat ->
     (forall G r acc, multi_view g' G r acc = Raise IndexError) /\
     (forall draws, is_ok (train_iter g' draws) = false)) /\
  ((16 <= Nat.min (List.length azs) (List.length poses))%nat ->
     forall G r acc, exists acc', multi_view g' G r acc = OK acc').
Proof.
  intros E. apply prepare_train_OK in E.
  destruct E as (_ & Hc & Hi & Hm & _).
  assert (Hlen : List.length (cameras g')
                 = Nat.min (List.length azs) (List.length poses))
    by (rewrite Hc; apply archive_cameras_length).
  split; [assumption|]. split; [assumption|]. split; [assumption|].
  split.
  - intros Hshort.
    assert (Hmv : forall G r acc, multi_view g' G r acc = Raise IndexError)
      by (intros; apply multi_view_short; lia).
    split; [assumption|].
    intros draws. unfold train_iter.
    destruct (step_ratio _ _) as [r|]; [|reflexivity]. simpl.
    unfold compose_loss.
    destruct (known_view _ _ _ _) as [acc|]; [|reflexivity]. simpl.
    now rewrite Hmv.
  - intros Hlong G r acc. apply multi_view_total; lia.
Qed.
End DensifyProperties.

Lemma densify_reads_last_novel_sample_witness :
  exists (g' : @GUI toy) (loss r : Q) (n : nat) (ver hor : Z)
         (c : @Cam toy) (inv : bool) (m : list Q),
    train_iter toy_trained toy_draws = OK (g', loss) /\
    step_ratio (step toy_trained + 1) (iters (opt toy_trained)) = OK r /\
    Z.to_nat (batch_size (opt toy_trained)) = S n /\
    novel_sample toy_trained r (toy_draws n) = OK (ver, hor, 0, c, inv) /\
    masked_max (gaussians toy_trained)
      (visibility_filter (toy_render (gaussians toy_trained) c inv))
      (radii (toy_render (gaussians toy_trained) c inv)) = OK m.
Proof.
  destruct (train_iter toy_trained toy_draws) as [[g' loss]|e] eqn:E;
    [|vm_compute in E; discriminate E].
  destruct (@densify_reads_last_novel_sample toy toy_trained g' toy_draws
              loss E eq_refl)
    as (r & n & ver & hor & c & inv & m & Hr & Hn & Hs & Hm & _).
  exists g', loss, r, n, ver, hor, c, inv, m. auto.
Defined.

Lemma multi_view_needs_sixteen_cameras_witness :
  exists g' : @GUI toy,
    prepare_train toy_init toy_azs toy_poses narrow_image = OK g' /\
    List.length (multiImagesTorch g') = 16%nat /\
    List.length (cameras g') = 16%nat.
Proof.
  destruct (prepare_train toy_init toy_azs toy_poses narrow_image)
    as [g'|e] eqn:E; [|vm_compute in E; discriminate E].
  exists g'. split; [reflexivity|].
  destruct (@multi_view_needs_sixteen_cameras toy toy_init g' toy_azs
              toy_poses narrow_image E)
    as (Hi & _ & Hc & _).
  split; assumption.
Defined.

(** C10 as stated fails for a multi-view image of 3841 columns, fifteen
    tiles of width 256 and one of width 1: with sixteen cameras
    [prepare_train] and the training step both complete. *)
Lemma narrow_image_raises_no_index_error :
  (List.length (hd [] (pixels narrow_image)) < 16 * 256)%nat /\
  exists (g' : @GUI toy) gl,
    prepare_train toy_init toy_azs toy_poses narrow_image = OK g' /\
    train_iter g' toy_draws = OK gl.
Proof.
  split; [vm_compute; lia|].
  assert (Hrun : is_ok (bind (prepare_train toy_init toy_azs toy_poses
                                narrow_image)
                          (fun g' => train_iter g' toy_draws)) = true)
    by (vm_compute; reflexivity).
  destruct (prepare_train toy_init toy_azs toy_poses narrow_image)
    as [g'|e]; [|discriminate Hrun].
  simpl in Hrun.
  destruct (train_iter g' toy_draws) as [gl|e] eqn:E2; [|discriminate Hrun].
  exists g', gl. split; [reflexivity|exact E2].
Qed.

(** * Further properties of the training step *)

(** ** The step ratio and the resolution schedule *)

Lemma inject_Z_pos (z : Z) : 0 < z -> (0 < inject_Z z)%Q.
Proof.
  intros Hz. change (inject_Z 0 < inject_Z z)%Q. now rewrite <- Zlt_Qlt.
Qed.

Lemma inject_Z_nonzero (z : Z) : 0 < z -> ~ (inject_Z z == 0)%Q.
Proof.
  intros Hz E. apply inject_Z_pos in Hz. rewrite E in Hz. discriminate Hz.
Qed.

Lemma py_min_one (x : Q) :
  ((x < 1)%Q -> py_min 1 x = x) /\ ((1 <= x)%Q -> py_min 1 x = 1%Q).
Proof.
  unfold py_min. split; intros Hx.
  - apply Qltb_lt in Hx. now rewrite Hx.
  - apply Qltb_ge in Hx. now rewrite Hx.
Qed.

Lemma ratio_lt_one (step iters : Z) :
  0 < iters -> (inject_Z step / inject_Z iters < 1)%Q <-> step < iters.
Proof.
  intros Hpos.
  pose proof (inject_Z_pos iters Hpos) as Hq.
  pose proof (inject_Z_nonzero iters Hpos) as Hnz.
  split.
  - intros Hlt. rewrite Zlt_Qlt.
    setoid_replace (inject_Z step)
      with (inject_Z step / inject_Z iters * inject_Z iters)%Q
      by (field; assumption).
    setoid_replace (inject_Z iters) with (1 * inject_Z iters)%Q at 3 by ring.
    apply Qmult_lt_compat_r; assumption.
  - intros Hlt. apply Qlt_shift_div_r; [assumption|].
    rewrite Qmult_1_l, <- Zlt_Qlt. assumption.
Qed.

Lemma ratio_monotone (s1 s2 iters : Z) :
  0 < iters -> s1 <= s2 ->
  (inject_Z s1 / inject_Z iters <= inject_Z s2 / inject_Z iters)%Q.
Proof.
  intros Hpos Hle.
  pose proof (inject_Z_pos iters Hpos) as Hq.
  pose proof (inject_Z_nonzero iters Hpos) as Hnz.
  apply Qle_shift_div_l; [assumption|].
  setoid_replace (inject_Z s1 / inject_Z iters * inject_Z iters)%Q
    with (inject_Z s1)
    by (field; assumption).
  rewrite <- Zle_Qle. assumption.
Qed.

(** X1: with a positive number of iterations the step ratio is computed
    without error, is the quotient [step / iters] as long as the step
    counter is below [iters], and is exactly 1 from there on; it never
    exceeds 1. *)
Theorem step_ratio_ramp (step iters : Z) :
  0 < iters ->
  exists r, step_ratio step iters = OK r /\ (r <= 1)%Q /\
            (step < iters -> r = (inject_Z step / inject_Z iters)%Q) /\
            (iters <= step -> r = 1%Q).
Proof.
  intros Hpos. unfold step_ratio.
  destruct (Z.eqb_spec iters 0) as [E|_]; [lia|].
  eexists. split; [reflexivity|].
  destruct (py_min_one (inject_Z step / inject_Z iters)) as [Hlo Hhi].
  destruct (Z_lt_le_dec step iters) as [Hlt|Hge].
  - pose proof (proj2 (ratio_lt_one step iters Hpos) Hlt) as Hr.
    rewrite (Hlo Hr). repeat split; auto.
    + now apply Qlt_le_weak.
    + intros; lia.
  - assert (Hr : (1 <= inject_Z step / inject_Z iters)%Q).
    { apply Qnot_lt_le. intros Hc.
      apply (proj1 (ratio_lt_one step iters Hpos)) in Hc. lia. }
    rewrite (Hhi Hr). repeat split; auto.
    + apply Qle_refl.
    + intros; lia.
Qed.

Lemma step_ratio_ramp_witness :
  exists r, step_ratio 3 10 = OK r /\ (r <= 1)%Q /\
            (3 < 10 -> r = (inject_Z 3 / inject_Z 10)%Q) /\
            (10 <= 3 -> r = 1%Q).
Proof. apply (step_ratio_ramp 3 10). lia. Defined.

Ltac qltb_props :=
  repeat match goal with
         | E : Qltb _ _ = true |- _ => apply Qltb_lt in E
         | E : Qltb _ _ = false |- _ => apply Qltb_ge in E
         end.

Lemma py_min_monotone (x y : Q) : (x <= y)%Q -> (py_min 1 x <= py_min 1 y)%Q.
Proof.
  intros Hxy. unfold py_min.
  destruct (Qltb x 1) eqn:Ex, (Qltb y 1) eqn:Ey; qltb_props; lra.
Qed.

Lemma render_resolution_monotone (r1 r2 : Q) :
  (r1 <= r2)%Q -> render_resolution r1 <= render_resolution r2.
Proof.
  intros Hr. unfold render_resolution.
  destruct (Qltb r1 (3 # 10)) eqn:E1, (Qltb r2 (3 # 10)) eqn:E2,
           (Qltb r1 (6 # 10)) eqn:E3, (Qltb r2 (6 # 10)) eqn:E4;
    try lia; exfalso; qltb_props; lra.
Qed.

(** X2: the schedule is coarse to fine.  With a positive number of
    iterations, a later step never renders its novel views at a lower
    resolution than an earlier one, and the resolution is always one of
    128, 256 and 512. *)
Theorem resolution_never_decreases (s1 s2 iters : Z) :
  0 < iters -> s1 <= s2 ->
  exists r1 r2,
    step_ratio s1 iters = OK r1 /\ step_ratio s2 iters = OK r2 /\
    render_resolution r1 <= render_resolution r2 /\
    (render_resolution r1 = 128 \/ render_resolution r1 = 256 \/
     render_resolution r1 = 512).
Proof.
  intros Hpos Hle. unfold step_ratio.
  destruct (Z.eqb_spec iters 0) as [E|_]; [lia|].
  do 2 eexists. split; [reflexivity|]. split; [reflexivity|]. split.
  - apply render_resolution_monotone, py_min_monotone.
    now apply ratio_monotone.
  - unfold render_resolution.
    destruct (Qltb _ (3 # 10)); [auto|]. destruct (Qltb _ (6 # 10)); auto.
Qed.

Lemma resolution_never_decreases_witness :
  exists r1 r2,
    step_ratio 100 500 = OK r1 /\ step_ratio 400 500 = OK r2 /\
    render_resolution r1 <= render_resolution r2 /\
    (render_resolution r1 = 128 \/ render_resolution r1 = 256 \/
     render_resolution r1 = 512).
Proof. apply (resolution_never_decreases 100 400 500); lia. Defined.

(** ** Which exceptions a step can raise *)

Lemma mse_loss_raises (x y : Tensor) (e : exn) :
  mse_loss x y = Raise e -> e = RuntimeError.
Proof.
  unfold mse_loss. destruct (Nat.eqb _ _); congruence.
Qed.

Section StepExceptions.
Context {B : Backend}.

Lemma known_view_raises (g : GUI) (G : Gaussians) (r : Q) (acc : LossOut)
  (e : exn) :
  known_view g G r acc = Raise e -> e = RuntimeError \/ e = AttributeError.
Proof.
  unfold known_view. intros E.
  destruct (input_img_torch g) as [ref|]; [|discriminate].
  destruct (fixed_cam g) as [c|]; [|inversion E; auto].
  destruct (input_mask_torch g) as [ref_mask|]; [|inversion E; auto].
  destruct (mse_loss (image (render G c false)) ref) as [l|e1] eqn:E1;
    simpl in E.
  - destruct (mse_loss (alpha (render G c false)) ref_mask) as [lm|e2] eqn:E2;
      simpl in E; [discriminate|].
    inversion E; subst. left. eapply mse_loss_raises; eauto.
  - inversion E; subst. left. eapply mse_loss_raises; eauto.
Qed.

Lemma novel_loop_total (g : GUI) (G : Gaussians) (r : Q)
  (draws : nat -> Draw) (ks : list nat) (b : Batch) :
  exists b', foldM (novel_body g G r draws) ks b = OK b'.
Proof.
  apply foldM_total. intros a k _. unfold novel_body.
  destruct (novel_sample_total g r (draws k))
    as (ver & hor & c & inv & -> & _).
  simpl. eauto.
Qed.

Lemma novel_batch_raises (g : GUI) (G : Gaussians) (r : Q)
  (draws : nat -> Draw) (out : option RenderOut) (e : exn) :
  novel_batch g G r draws out = Raise e -> e = RuntimeError.
Proof.
  unfold novel_batch. intros E.
  destruct (novel_loop_total g G r draws
              (seq 0 (Z.to_nat (batch_size (opt g))))
              {| images := []; b_vers := []; b_hors := []; b_radii := [];
                 b_out := out |}) as [b' Eb].
  rewrite Eb in E. simpl in E. destruct (images b'); congruence.
Qed.

Lemma guidance_raises (g : GUI) (r : Q) (b : Batch) (loss : Q) (e : exn) :
  guidance g r b loss = Raise e -> e = AttributeError.
Proof.
  unfold guidance, sd_term, zero123_term. intros E.
  destruct (enable_sd g), (guidance_sd g);
    destruct (enable_zero123 g), (guidance_zero123 g);
    simpl in E; congruence.
Qed.

Lemma masked_max_raises (m : list Q) (vis : list bool) (rd : list Q)
  (e : exn) :
  masked_max m vis rd = Raise e -> e = IndexError.
Proof.
  unfold masked_max. destruct (_ && _); congruence.
Qed.

Lemma py_mod_raises (a b : Z) (e : exn) :
  py_mod a b = Raise e -> e = ZeroDivisionError.
Proof.
  unfold py_mod. destruct (b =? 0); congruence.
Qed.

Lemma densify_raises (o : Opt) (step : Z) (G : Gaussians) (out : RenderOut)
  (e : exn) :
  densify o step G (Some out) = Raise e ->
  e = IndexError \/ e = ZeroDivisionError.
Proof.
  unfold densify, record_stats, interval_actions. intros E.
  destruct (in_density_window o step); [|discriminate].
  destruct (masked_max _ _ _) as [m|e1] eqn:E1; simpl in E.
  - destruct (py_mod step (densification_interval o)) as [k|e2] eqn:E2;
      simpl in E.
    + destruct (py_mod step (opacity_reset_interval o)) as [k'|e3] eqn:E3;
        simpl in E; [discriminate|].
      inversion E; subst. right. eapply py_mod_raises; eauto.
    + inversion E; subst. right. eapply py_mod_raises; eauto.
  - inversion E; subst. left. eapply masked_max_raises; eauto.
Qed.

(** X3: a training step that fails raises a division by zero (no
    iterations, or a zero interval), an index error (fewer than sixteen
    cameras or tensors, or a render whose filter and radii do not match
    the cloud), a runtime error (tensor shapes, or an empty batch) or an
    attribute error (a missing camera, mask or guidance model).  It never
    fails in the random draws, whose intervals are never empty, and never
    reaches the densification with the variable [out] unbound. *)
Theorem train_iter_exceptions (g : GUI) (draws : nat -> Draw) (e : exn) :
  train_iter g draws = Raise e ->
  e = ZeroDivisionError \/ e = IndexError \/ e = RuntimeError \/
  e = AttributeError.
Proof.
  unfold train_iter. intros E.
  destruct (step_ratio (step g + 1) (iters (opt g))) as [r|e0] eqn:Er.
  2:{ simpl in E. inversion E; subst. left.
      unfold step_ratio in Er. destruct (_ =? 0); congruence. }
  simpl in E. unfold compose_loss in E.
  set (G := update_learning_rate (gaussians g) (step g + 1)) in *.
  destruct (known_view g G r (0%Q, None)) as [acc0|e1] eqn:Ek; simpl in E.
  2:{ inversion E; subst. apply known_view_raises in Ek. tauto. }
  destruct (multi_view g G r acc0) as [acc|e2] eqn:Em; simpl in E.
  2:{ inversion E; subst. right. left. unfold multi_view in Em.
      eapply (foldM_raise_only IndexError); [|exact Em].
      intros a i e'. apply multi_view_body_raises. }
  destruct (novel_batch g G r draws (snd acc)) as [b|e3] eqn:Eb; simpl in E.
  2:{ inversion E; subst. apply novel_batch_raises in Eb. tauto. }
  destruct (guidance g r b (fst acc)) as [loss|e4] eqn:Eg; simpl in E.
  2:{ inversion E; subst. apply guidance_raises in Eg. tauto. }
  apply novel_batch_last in Eb.
  destruct Eb as (n & ver & hor & c & inv & _ & _ & Hout).
  rewrite Hout in E.
  destruct (densify _ _ _ _) as [G'|e5] eqn:Ed; simpl in E; [discriminate|].
  inversion E; subst. apply densify_raises in Ed. tauto.
Qed.

(** X4: with a batch size of zero or less the novel-view loop renders
    nothing, [torch.cat] of the empty list raises a runtime error, and no
    training step completes. *)
Theorem empty_batch_fails (g : GUI) :
  batch_size (opt g) <= 0 ->
  (forall G r draws out,
     novel_batch g G r draws out = Raise RuntimeError) /\
  (forall draws, is_ok (train_iter g draws) = false).
Proof.
  intros Hb.
  assert (Hnb : forall G r draws out,
             novel_batch g G r draws out = Raise RuntimeError).
  { intros. unfold novel_batch.
    replace (Z.to_nat (batch_size (opt g))) with 0%nat by lia.
    reflexivity. }
  split; [assumption|].
  intros draws. unfold train_iter.
  destruct (step_ratio _ _); [|reflexivity]. simpl. unfold compose_loss.
  destruct (known_view _ _ _ _); [|reflexivity]. simpl.
  destruct (multi_view _ _ _ _); [|reflexivity]. simpl.
  now rewrite Hnb.
Qed.
End StepExceptions.

Lemma train_iter_exceptions_witness :
  RuntimeError = ZeroDivisionError \/ RuntimeError = IndexError \/
  RuntimeError = RuntimeError \/ RuntimeError = AttributeError.
Proof.
  exact (@train_iter_exceptions toy toy_no_batch toy_draws RuntimeError
           eq_refl).
Defined.

Lemma empty_batch_fails_witness :
  @novel_batch toy toy_no_batch (gaussians toy_no_batch) (1 # 2) toy_draws
    None = Raise RuntimeError /\
  is_ok (train_iter toy_no_batch toy_draws) = false.
Proof.
  destruct (@empty_batch_fails toy toy_no_batch) as [Hb Hs];
    [simpl; lia|].
  split; [apply Hb|apply Hs].
Defined.

(** ** The novel-view batch *)

Section BatchProperties.
Context {B : Backend}.

Lemma novel_sample_ranges (g : GUI) (r : Q) (d : Draw)
  (ver hor rad : Z) (c : Cam) (inv : bool) :
  novel_sample g r d = OK (ver, hor, rad, c, inv) ->
  min_ver (elevation (opt g)) <= ver < max_ver (elevation (opt g)) /\
  -180 <= hor < 180 /\ rad = 0.
Proof.
  unfold novel_sample. intros E.
  inv_bind_as E v Ev. inv_bind_as E h Eh. inversion E; subst.
  apply randint_range in Ev, Eh. auto.
Qed.

Lemma novel_loop_invariant (g : GUI) (G : Gaussians) (r : Q)
  (draws : nat -> Draw) (ks : list nat) (a b : Batch)
  (P Ph Pr : Z -> Prop) :
  (forall d ver hor rad c inv,
     novel_sample g r d = OK (ver, hor, rad, c, inv) ->
     P ver /\ Ph hor /\ Pr rad) ->
  foldM (novel_body g G r draws) ks a = OK b ->
  Forall P (b_vers a) -> Forall Ph (b_hors a) -> Forall Pr (b_radii a) ->
  (List.length (images b) = List.length (images a) + List.length ks)%nat /\
  (List.length (b_vers b) = List.length (b_vers a) + List.length ks)%nat /\
  (List.length (b_hors b) = List.length (b_hors a) + List.length ks)%nat /\
  (List.length (b_radii b) = List.length (b_radii a) + List.length ks)%nat /\
  Forall P (b_vers b) /\ Forall Ph (b_hors b) /\ Forall Pr (b_radii b).
Proof.
  intros Hs. revert a.
  induction ks as [|k ks IH]; simpl; intros a E Hv Hh Hr.
  - inversion E; subst. repeat split; auto; lia.
  - inv_bind_as E a1 Ea. unfold novel_body in Ea.
    inv_bind_as Ea s Es. destruct s as [[[[ver hor] rad] c] inv].
    inversion Ea; subst a1; clear Ea.
    destruct (Hs _ _ _ _ _ _ Es) as (Hp & Hph & Hpr).
    apply IH in E; simpl.
    + simpl in E. rewrite !length_app in E. simpl in E.
      destruct E as (E1 & E2 & E3 & E4 & E5).
      repeat split; try lia; tauto.
    + apply Forall_app; auto.
    + apply Forall_app; auto.
    + apply Forall_app; auto.
Qed.

(** X5: a novel-view batch that is built holds one image, one elevation
    offset, one azimuth and one radius per sample; every offset lies in
    the sampling interval, so that the absolute elevation stays between
    -80 and 80 degrees, every azimuth lies between -180 and 179 degrees,
    and every radius offset is 0. *)
Theorem novel_batch_shape (g : GUI) (G : Gaussians) (r : Q)
  (draws : nat -> Draw) (out : option RenderOut) (b : Batch) :
  novel_batch g G r draws out = OK b ->
  List.length (images b) = Z.to_nat (batch_size (opt g)) /\
  List.length (b_vers b) = Z.to_nat (batch_size (opt g)) /\
  List.length (b_hors b) = Z.to_nat (batch_size (opt g)) /\
  List.length (b_radii b) = Z.to_nat (batch_size (opt g)) /\
  Forall (fun ver => -80 <= elevation (opt g) + ver < 80) (b_vers b) /\
  Forall (fun hor => -180 <= hor < 180) (b_hors b) /\
  Forall (fun rad => rad = 0) (b_radii b).
Proof.
  unfold novel_batch. intros E. inv_bind_as E b0 Eloop.
  assert (b0 = b) by (destruct (images b0); congruence). subst b0.
  apply (novel_loop_invariant g G r draws _ _ _
           (fun ver => -80 <= elevation (opt g) + ver < 80)
           (fun hor => -180 <= hor < 180) (fun rad => rad = 0)) in Eloop;
    simpl; auto.
  - simpl in Eloop. rewrite length_seq in Eloop. tauto.
  - intros d ver hor rad c inv Es. apply novel_sample_ranges in Es.
    unfold min_ver, max_ver in Es. lia.
Qed.
End BatchProperties.

Lemma novel_batch_shape_witness :
  exists b : Batch,
    @novel_batch toy toy_trained (gaussians toy_trained) (1 # 2) toy_draws
      None = OK b /\
    List.length (images b) = 2%nat /\
    Forall (fun ver => -80 <= 0 + ver < 80) (b_vers b).
Proof.
  eexists. split; [reflexivity|].
  destruct (@novel_batch_shape toy toy_trained (gaussians toy_trained)
              (1 # 2) toy_draws None _ eq_refl)
    as (Hi & _ & _ & _ & Hv & _).
  split; assumption.
Defined.

(** ** The step counter and what a step leaves alone *)

Section StepFrame.
Context {B : Backend}.

Lemma train_iter_frame (g g' : GUI) (draws : nat -> Draw) (loss : Q) :
  train_iter g draws = OK (g', loss) ->
  g' = set_progress g (step g + 1) (gaussians g').
Proof.
  unfold train_iter. intros E.
  inv_bind_as E r Er. inv_bind_as E lb Eloss. destruct lb as [l b].
  inv_bind_as E G Ed. inversion E; subst. reflexivity.
Qed.

Lemma train_loop_frame (ks : list nat) (draws : nat -> nat -> Draw)
  (g g' : GUI) :
  foldM (fun g n => gl <- train_iter g (draws n) ;; OK (fst gl)) ks g
    = OK g' ->
  g' = set_progress g (step g + Z.of_nat (List.length ks)) (gaussians g').
Proof.
  revert g. induction ks as [|k ks IH]; simpl; intros g E.
  - inversion E; subst. rewrite Z.add_0_r. now destruct g'.
  - inv_bind_as E g1 E1. inv_bind_as E1 gl Egl. inversion E1; subst g1.
    destruct gl as [g1 l]. simpl in *.
    apply train_iter_frame in Egl. apply IH in E.
    rewrite E at 1. rewrite Egl at 1 2. unfold set_progress; simpl.
    f_equal. lia.
Qed.

End StepFrame.


(** ** The running maximum of the screen radii *)

Lemma q_max_bounds (a b : Q) : (a <= q_max a b)%Q /\ (b <= q_max a b)%Q.
Proof.
  unfold q_max. destruct (Qltb a b) eqn:E; qltb_props; split; lra.
Qed.

Lemma masked_max_nth (m : list Q) (vis : list bool) (rd : list Q) (k : nat) :
  List.length vis = List.length m -> List.length rd = List.length m ->
  (k < List.length m)%nat ->
  nth k (map (fun t : Q * bool * Q =>
                let '(a, v, b) := t in if v then q_max a b else a)
           (combine (combine m vis) rd)) 0%Q
  = if nth k vis false then q_max (nth k m 0%Q) (nth k rd 0%Q)
    else nth k m 0%Q.
Proof.
  revert vis rd k. induction m as [|a m IH]; intros vis rd k Hv Hr Hk;
    [simpl in Hk; lia|].
  destruct vis as [|v vis]; [discriminate|].
  destruct rd as [|b rd]; [discriminate|].
  destruct k as [|k]; simpl; [reflexivity|].
  apply IH; simpl in *; lia.
Qed.

(** X7: the update of [max_radii2D] keeps the number of entries, never
    lowers an entry, leaves the entry of every primitive outside the
    visibility filter as it was, and raises the entry of every visible
    primitive to at least its radius in the render. *)
Theorem masked_max_running_max (m : list Q) (vis : list bool) (rd m' : list Q) :
  masked_max m vis rd = OK m' ->
  List.length m' = List.length m /\
  forall k, (k < List.length m)%nat ->
    (nth k m 0 <= nth k m' 0)%Q /\
    (nth k vis false = false -> nth k m' 0%Q = nth k m 0%Q) /\
    (nth k vis false = true -> (nth k rd 0 <= nth k m' 0)%Q).
Proof.
  unfold masked_max. intros E.
  destruct (Nat.eqb_spec (List.length vis) (List.length m)) as [Hv|];
    [|discriminate].
  destruct (Nat.eqb_spec (List.length rd) (List.length m)) as [Hr|];
    [|discriminate].
  simpl in E. inversion E; subst m'; clear E. split.
  - rewrite length_map, !length_combine. lia.
  - intros k Hk. rewrite (masked_max_nth m vis rd k Hv Hr Hk).
    destruct (q_max_bounds (nth k m 0%Q) (nth k rd 0%Q)) as [Ha Hb].
    destruct (nth k vis false); repeat split; auto; try discriminate.
    apply Qle_refl.
Qed.

Lemma masked_max_running_max_witness :
  exists m',
    masked_max [1; 5]%Q [true; false] [3; 9]%Q = OK m' /\
    List.length m' = 2%nat /\
    forall k, (k < 2)%nat ->
      (nth k [1; 5] 0 <= nth k m' 0)%Q /\
      (nth k [true; false] false = false -> nth k m' 0%Q = nth k [1; 5]%Q 0%Q) /\
      (nth k [true; false] false = true -> (nth k [3; 9] 0 <= nth k m' 0)%Q).
Proof.
  eexists. split; [reflexivity|].
  exact (masked_max_running_max [1; 5]%Q [true; false] [3; 9]%Q _ eq_refl).
Defined.

(** * Further properties of the preparation *)

Section PrepareProperties.
Context {B : Backend}.

(** X8: [prepare_train] restarts the step counter at 0, sets up the
    optimizer of the cloud and the fixed camera at azimuth 0, and loads
    guidance lazily: a disabled guidance model is neither created nor
    dropped, and an enabled one is created only if the object had none,
    then given the embeddings of the prompt. *)
Theorem prepare_train_resets (g g' : GUI) (azs : list Q) (poses : list Pose)
  (img : Image) :
  prepare_train g azs poses img = OK g' ->
  step g' = 0 /\
  gaussians g' = training_setup (gaussians g) /\
  fixed_cam g'
    = Some (mini_cam g
              (orbit_camera (inject_Z (elevation (opt g))) 0 (radius (opt g)))
              (ref_size (opt g))) /\
  (enable_sd g' = false -> guidance_sd g' = guidance_sd g) /\
  (enable_zero123 g' = false -> guidance_zero123 g' = guidance_zero123 g) /\
  (enable_sd g' = true ->
     guidance_sd g'
       = Some (get_text_embeds
                 match guidance_sd g with Some m => m | None => new_sd end
                 (prompt g) (negative_prompt g))).
Proof.
  unfold prepare_train. intros E.
  inv_bind_as E mm Eload. destruct mm as [multiImages multiMasks].
  inv_bind_as E imgsT Ei. inv_bind_as E masksT Em.
  inv_bind_as E it Et. destruct it as [img_t mask_t].
  inv_bind_as E sd' Esd. inv_bind_as E z123' Ez.
  inversion E; subst g'; clear E.
  cbn [step gaussians fixed_cam enable_sd enable_zero123 guidance_sd
       guidance_zero123].
  repeat split.
  - intros En. rewrite En in Esd. destruct (guidance_sd g); congruence.
  - intros En. rewrite En in Ez. destruct (guidance_zero123 g); congruence.
  - intros En. rewrite En in Esd. destruct (guidance_sd g); congruence.
Qed.

(** X9: the multi-view cameras depend on the pose archive through its
    number of entries only.  Two archives of the same length, whatever
    azimuths and pose matrices they hold, prepare the same object. *)
Theorem prepare_train_ignores_archive_poses (g : GUI) (azs azs' : list Q)
  (poses poses' : list Pose) (img : Image) :
  Nat.min (List.length azs) (List.length poses)
    = Nat.min (List.length azs') (List.length poses') ->
  prepare_train g azs poses img = prepare_train g azs' poses' img.
Proof.
  intros Hlen. unfold prepare_train, archive_cameras.
  now rewrite !length_combine, Hlen.
Qed.
End PrepareProperties.

Lemma prepare_train_resets_witness :
  exists g' : @GUI toy,
    prepare_train toy_init toy_azs toy_poses narrow_image = OK g' /\
    step g' = 0 /\
    (enable_zero123 g' = false ->
       guidance_zero123 g' = guidance_zero123 toy_init).
Proof.
  destruct (prepare_train toy_init toy_azs toy_poses narrow_image)
    as [g'|e] eqn:E; [|vm_compute in E; discriminate E].
  exists g'. split; [reflexivity|].
  destruct (@prepare_train_resets toy toy_init g' toy_azs toy_poses
              narrow_image E) as (Hs & _ & _ & _ & Hz & _).
  split; assumption.
Defined.

Lemma prepare_train_ignores_archive_poses_witness :
  prepare_train toy_init toy_azs toy_poses narrow_image
  = prepare_train toy_init (repeat (7 # 1) 20)
      (repeat (1, 2, 3)%Q 16 : list (@Pose toy)) narrow_image.
Proof.
  apply (@prepare_train_ignores_archive_poses toy). reflexivity.
Defined.

(** ** The tiles of the multi-view image *)

Lemma chunks_concat {A : Type} (c n : nat) (l : list A) :
  concat (map (fun i => firstn c (skipn (i * c) l)) (seq 0 n))
  = firstn (n * c) l.
Proof.
  induction n as [|n IH]; [reflexivity|].
  rewrite seq_S, map_app, concat_app, IH. simpl.
  rewrite app_nil_r.
  rewrite <- (firstn_skipn (n * c) (firstn (c + n * c) l)).
  rewrite firstn_firstn, skipn_firstn_comm.
  f_equal.
  - f_equal. lia.
  - f_equal. lia.
Qed.

(** X10: the sixteen tiles cut every row of the multi-view image into
    consecutive pieces of 256 columns: tile [i] holds the columns from
    [256 i] on, as many as the row has up to 256, and the tiles of a row
    put side by side are its first 4096 columns; nothing is lost or
    repeated, and columns beyond 4096 are not read. *)
Theorem tiles_partition_rows (img : Image) (k : nat) :
  (k < List.length (pixels img))%nat ->
  (forall i,
     List.length (nth k (pixels (tile img i)) [])
     = Nat.min 256 (List.length (nth k (pixels img) []) - i * 256)) /\
  concat (map (fun i => nth k (pixels (tile img i)) []) (seq 0 16))
  = firstn 4096 (nth k (pixels img) []).
Proof.
  intros Hk.
  assert (Hrow : forall i,
             nth k (pixels (tile img i)) []
             = firstn 256 (skipn (i * 256) (nth k (pixels img) []))).
  { intros i. unfold tile. cbn [pixels].
    rewrite (nth_indep _ []
               (firstn 256 (skipn (i * 256) (@nil (list Z)))))
      by (now rewrite length_map).
    now rewrite (map_nth (fun row => firstn 256 (skipn (i * 256) row))). }
  split.
  - intros i. rewrite Hrow, length_firstn, length_skipn. reflexivity.
  - rewrite (map_ext _ _ Hrow).
    apply (chunks_concat 256 16).
Qed.

Lemma tiles_partition_rows_witness :
  (forall i,
     List.length (nth 0 (pixels (tile narrow_image i)) [])
     = Nat.min 256 (List.length (nth 0 (pixels narrow_image) []) - i * 256)) /\
  concat (map (fun i => nth 0 (pixels (tile narrow_image i)) []) (seq 0 16))
  = firstn 4096 (nth 0 (pixels narrow_image) []).
Proof.
  apply (tiles_partition_rows narrow_image 0). simpl. lia.
Defined.

(** ** Compositing on white *)

(** X11: on a pixel of four channels in blue, green, red, alpha order
    the composite returns the colours in red, green, blue order, each
    blended with white by the alpha, and the alpha as mask.  An opaque
    pixel keeps its colours, a transparent one becomes white, and
    channels between 0 and 1 give colours between 0 and 1. *)
Theorem composite_px_on_white (b g r a : Q) :
  exists r' g' b',
    composite_px [b; g; r; a] = OK ([r'; g'; b'], [a]) /\
    (a == 1 -> r' == r /\ g' == g /\ b' == b)%Q /\
    (a == 0 -> r' == 1 /\ g' == 1 /\ b' == 1)%Q /\
    ((0 <= a <= 1 /\ 0 <= r <= 1 /\ 0 <= g <= 1 /\ 0 <= b <= 1)%Q ->
     (0 <= r' <= 1 /\ 0 <= g' <= 1 /\ 0 <= b' <= 1)%Q).
Proof.
  do 3 eexists. split; [reflexivity|].
  split; [|split].
  - intros Ha. rewrite Ha. repeat split; ring.
  - intros Ha. rewrite Ha. repeat split; ring.
  - intros (Ha & Hr & Hg & Hb). repeat split; nra.
Qed.

(** * Further properties of the texture atlas *)

(** ** The fill frontier *)

Lemma dilate1_true (h w : nat) (m : Grid bool) (i j : nat) :
  getb (dilate1 h w m) i j = true <->
  (i < h)%nat /\ (j < w)%nat /\
  (getb m i j = true \/ above m i j = true \/ getb m (S i) j = true \/
   left_of m i j = true \/ getb m i (S j) = true).
Proof.
  unfold dilate1, getb at 1. rewrite grid_get_tabulate.
  destruct (Nat.ltb_spec i h), (Nat.ltb_spec j w); simpl;
    try (split; [discriminate | intros; lia]).
  rewrite !orb_true_iff. intuition.
Qed.

Lemma dilation_within (h w : nat) (m : Grid bool) (n : nat) (i j : nat) :
  getb (binary_dilation h w m n) i j = true ->
  exists k l, getb m k l = true /\ manhattan (i, j) (k, l) <= Z.of_nat n.
Proof.
  unfold binary_dilation. revert i j.
  induction n as [|n IH]; intros i j E.
  - exists i, j. split; [exact E|]. unfold manhattan; cbn [fst snd]. lia.
  - cbn [Nat.iter nat_rect] in E. apply dilate1_true in E.
    destruct E as (_ & _ & [E|[E|[E|[E|E]]]]).
    + destruct (IH _ _ E) as (k & l & Hv & Hd).
      exists k, l. split; [assumption|]. lia.
    + apply above_true in E. destruct E as (i' & -> & E).
      destruct (IH _ _ E) as (k & l & Hv & Hd).
      exists k, l. split; [assumption|]. unfold manhattan in *; cbn [fst snd] in *.
      lia.
    + destruct (IH _ _ E) as (k & l & Hv & Hd).
      exists k, l. split; [assumption|]. unfold manhattan in *; cbn [fst snd] in *.
      lia.
    + apply left_of_true in E. destruct E as (j' & -> & E).
      destruct (IH _ _ E) as (k & l & Hv & Hd).
      exists k, l. split; [assumption|]. unfold manhattan in *; cbn [fst snd] in *.
      lia.
    + destruct (IH _ _ E) as (k & l & Hv & Hd).
      exists k, l. split; [assumption|]. unfold manhattan in *; cbn [fst snd] in *.
      lia.
Qed.

Lemma dilation_reaches (h w : nat) (m : Grid bool) (n : nat) :
  bounded h w m ->
  forall i j k l,
    (i < h)%nat -> (j < w)%nat -> getb m k l = true ->
    manhattan (i, j) (k, l) <= Z.of_nat n ->
    getb (binary_dilation h w m n) i j = true.
Proof.
  intros Hb. unfold binary_dilation.
  induction n as [|n IH]; intros i j k l Hi Hj Hv Hd.
  - unfold manhattan in Hd; cbn [fst snd] in Hd.
    assert (i = k) by lia. assert (j = l) by lia. subst. exact Hv.
  - cbn [Nat.iter nat_rect]. apply dilate1_true.
    split; [assumption|]. split; [assumption|].
    destruct (Hb k l Hv) as [Hk Hl].
    destruct (Z_le_gt_dec (manhattan (i, j) (k, l)) (Z.of_nat n))
      as [Hnear|Hfar].
    + left. eapply IH; eauto.
    + unfold manhattan in *; cbn [fst snd] in *.
      destruct (lt_eq_lt_dec i k) as [[Hlt|Heq]|Hgt].
      * right. right. left. apply (IH (S i) j k l); try lia; auto.
      * subst i. destruct (lt_eq_lt_dec j l) as [[Hlt|Heq]|Hgt].
        -- right. right. right. right.
           apply (IH k (S j) k l); try lia; auto.
        -- lia.
        -- right. right. right. left. destruct j as [|j']; [lia|]. simpl.
           apply (IH k j' k l); try lia; auto.
      * right. left. destruct i as [|i']; [lia|]. simpl.
        apply (IH i' j k l); try lia; auto.
Qed.

Lemma frontier_ball (h w : nat) (cnt : Grid Q) (i j : nat) :
  getb (inpaint_region h w (valid_mask h w cnt)) i j = true <->
  (i < h)%nat /\ (j < w)%nat /\ (getq cnt i j <= 0)%Q /\
  exists k l, (k < h)%nat /\ (l < w)%nat /\ (0 < getq cnt k l)%Q /\
              manhattan (i, j) (k, l) <= 32.
Proof.
  split.
  - intros E. apply getb_tabulate_true in E. destruct E as (Hi & Hj & E).
    destruct (getb (valid_mask h w cnt) i j) eqn:Ev; [discriminate|].
    apply dilation_within in E. destruct E as (k & l & Hv & Hd).
    apply valid_mask_true in Hv. destruct Hv as (Hk & Hl & Hv).
    repeat split; auto.
    + now apply (valid_mask_false h w).
    + exists k, l. auto.
  - intros (Hi & Hj & Hc & k & l & Hk & Hl & Hv & Hd).
    unfold inpaint_region, getb at 1.
    rewrite grid_get_tabulate_in by assumption.
    fold (getb (valid_mask h w cnt) i j).
    destruct (getb (valid_mask h w cnt) i j) eqn:Ev.
    + apply valid_mask_true in Ev. destruct Ev as (_ & _ & Ev).
      exfalso. apply (Qlt_irrefl 0). eapply Qlt_le_trans; eauto.
    + apply (dilation_reaches h w _ 32 (bounded_tabulate _ _ _) i j k l);
        auto.
      apply valid_mask_true. auto.
Qed.

(** X12: the fill frontier is made of the holes that lie within 32
    city-block steps of a valid texel: a texel is inpainted exactly when
    it is inside the atlas, its count is not positive, and some texel
    with a positive count is at city-block distance at most 32. *)
Theorem fill_frontier_is_the_32_ball (h w : nat) (cnt : Grid Q) (i j : nat) :
  getb (inpaint_region h w (valid_mask h w cnt)) i j = true <->
  (i < h)%nat /\ (j < w)%nat /\ (getq cnt i j <= 0)%Q /\
  exists k l, (k < h)%nat /\ (l < w)%nat /\ (0 < getq cnt k l)%Q /\
              manhattan (i, j) (k, l) <= 32.
Proof. apply frontier_ball. Qed.

(** ** What hole filling writes, and when it returns *)

Lemma scatter_keeps_shape (h w : nat) (cs : list (nat * nat))
  (vs : list Color) (g : Grid Color) :
  shape h w g -> shape h w (scatter g cs vs).
Proof.
  unfold scatter. generalize (combine cs vs) as l. intros l. revert g.
  induction l as [|cv l IH]; intros g Hg; simpl; [assumption|].
  apply IH. now apply shape_grid_set.
Qed.

Section FillProperties.
Variable kn : list (nat * nat) -> nat * nat -> nat.
Hypothesis kn_exact : exact_knn kn.
Variables h w : nat.

Lemma inpaint_OK_inv (mask : Grid bool) (albedo filled : Grid Color) :
  inpaint kn h w mask albedo = OK filled ->
  nonzero h w (search_region h w mask) <> [] /\
  nonzero h w (inpaint_region h w mask) <> [].
Proof.
  unfold inpaint. intros E.
  destruct (nonzero h w (search_region h w mask)) as [|s sc];
    [discriminate|].
  destruct (nonzero h w (inpaint_region h w mask)) as [|c ic];
    [discriminate|].
  split; discriminate.
Qed.

(** X13: hole filling writes inside the fill frontier only.  The atlas
    it returns has the shape of the atlas it was given, every valid
    texel keeps its normalised colour, and every hole outside the
    frontier keeps the colour sum it had. *)
Theorem inpaint_writes_frontier_only (albedo : Grid Color) (cnt : Grid Q)
  (filled : Grid Color) :
  finish_texture kn h w (albedo, cnt) = OK filled ->
  shape h w filled /\
  forall i j, (i < h)%nat -> (j < w)%nat ->
    getb (inpaint_region h w (valid_mask h w cnt)) i j = false ->
    getc filled i j
    = if Qltb 0 (getq cnt i j)
      then color_div (getc albedo i j) (getq cnt i j)
      else getc albedo i j.
Proof.
  unfold finish_texture. intros E.
  pose proof (inpaint_OK_inv _ _ _ E) as [Hsc Hic].
  rewrite (inpaint_runs kn kn_exact h w _ _ Hsc Hic) in E.
  inversion E; subst filled; clear E. split.
  - apply scatter_keeps_shape, shape_tabulate.
  - intros i j Hi Hj Hout.
    rewrite (scatter_outside h w _
               (nonzero h w (inpaint_region h w (valid_mask h w cnt)))
               (normalize h w albedo cnt) i j
               (shape_tabulate _ _ _) (nonzero_inside _ _ _)).
    + unfold normalize, getc at 1.
      rewrite grid_get_tabulate_in by assumption.
      unfold valid_mask, getb.
      now rewrite grid_get_tabulate_in by assumption.
    + intros Hin. apply in_nonzero in Hin.
      destruct Hin as (_ & _ & Hin). congruence.
Qed.

(** Between a valid texel and a hole there is a hole next to a valid
    texel. *)
Lemma hole_next_to_valid (mask : Grid bool) (n : nat) :
  bounded h w mask ->
  forall i j k l,
    (i < h)%nat -> (j < w)%nat -> getb mask i j = false ->
    getb mask k l = true -> manhattan (i, j) (k, l) <= Z.of_nat n ->
    exists i' j' k' l',
      (i' < h)%nat /\ (j' < w)%nat /\ getb mask i' j' = false /\
      getb mask k' l' = true /\ manhattan (i', j') (k', l') <= 1.
Proof.
  intros Hb. induction n as [|n IH]; intros i j k l Hi Hj Hh Hv Hd.
  - unfold manhattan in Hd; cbn [fst snd] in Hd.
    assert (i = k) by lia. assert (j = l) by lia. subst. congruence.
  - destruct (Hb k l Hv) as [Hk Hl].
    assert (Hstep : exists k1 l1,
               (k1 < h)%nat /\ (l1 < w)%nat /\
               manhattan (k1, l1) (k, l) <= 1 /\
               manhattan (i, j) (k1, l1) <= Z.of_nat n).
    { unfold manhattan in *; cbn [fst snd] in *.
      destruct (lt_eq_lt_dec i k) as [[Hlt|Heq]|Hgt].
      - exists (k - 1)%nat, l. repeat split; lia.
      - subst i. destruct (lt_eq_lt_dec j l) as [[Hlt|Heq]|Hgt].
        + exists k, (l - 1)%nat. repeat split; lia.
        + subst j. congruence.
        + exists k, (S l). repeat split; lia.
      - exists (S k), l. repeat split; lia. }
    destruct Hstep as (k1 & l1 & Hk1 & Hl1 & Hnear & Hd1).
    destruct (getb mask k1 l1) eqn:E1.
    + apply (IH i j k1 l1); assumption.
    + exists k1, l1, k, l. repeat split; assumption.
Qed.

(** X14: normalisation and hole filling return an atlas exactly when the
    atlas has both a valid texel and a hole.  With no valid texel, or
    with every texel valid, the nearest-neighbour search is given an
    empty array and raises [ValueError]; no other exception occurs. *)
Theorem finish_texture_returns_iff (albedo : Grid Color) (cnt : Grid Q) :
  ((exists filled, finish_texture kn h w (albedo, cnt) = OK filled) <->
   (exists k l, (k < h)%nat /\ (l < w)%nat /\ (0 < getq cnt k l)%Q) /\
   (exists i j, (i < h)%nat /\ (j < w)%nat /\ (getq cnt i j <= 0)%Q)) /\
  (forall e, finish_texture kn h w (albedo, cnt) = Raise e ->
             e = ValueError).
Proof.
  set (mask := valid_mask h w cnt).
  assert (Hb : bounded h w mask) by apply bounded_tabulate.
  split; [split|].
  - intros [filled E]. unfold finish_texture in E. fold mask in E.
    apply inpaint_OK_inv in E. destruct E as [Hsc Hic].
    destruct (nonzero h w (inpaint_region h w mask)) as [|[i j] ic] eqn:Ei;
      [congruence|].
    assert (Hin : In (i, j) (nonzero h w (inpaint_region h w mask)))
      by (rewrite Ei; now left).
    apply in_nonzero in Hin. destruct Hin as (_ & _ & Hin).
    apply frontier_ball in Hin.
    destruct Hin as (Hi & Hj & Hc & k & l & Hk & Hl & Hv & _).
    split; [exists k, l | exists i, j]; auto.
  - intros [(k & l & Hk & Hl & Hv) (i & j & Hi & Hj & Hc)].
    assert (Hvalid : getb mask k l = true) by (apply valid_mask_true; auto).
    assert (Hhole : getb mask i j = false).
    { destruct (getb mask i j) eqn:E; [|reflexivity].
      apply valid_mask_true in E. destruct E as (_ & _ & E).
      exfalso. apply (Qlt_irrefl 0). eapply Qlt_le_trans; eauto. }
    destruct (hole_next_to_valid mask
                (Z.to_nat (manhattan (i, j) (k, l))) Hb i j k l Hi Hj
                Hhole Hvalid)
      as (i' & j' & k' & l' & Hi' & Hj' & Hh' & Hv' & Hd').
    { unfold manhattan; cbn [fst snd]. lia. }
    assert (Hfront : getb (inpaint_region h w mask) i' j' = true).
    { apply frontier_ball.
      apply valid_mask_true in Hv'. destruct Hv' as (Hk' & Hl' & Hv').
      repeat split; auto.
      - now apply (valid_mask_false h w).
      - exists k', l'. repeat split; auto. lia. }
    destruct (inpaint_nearest kn kn_exact h w mask
                (normalize h w albedo cnt) i' j' Hb (shape_tabulate _ _ _)
                Hfront) as (filled & _ & _ & E & _).
    exists filled. exact E.
  - intros e E. unfold finish_texture in E. fold mask in E.
    unfold inpaint in E.
    destruct (nonzero h w (search_region h w mask)) as [|s sc] eqn:Es;
      [simpl in E; congruence|].
    destruct (nonzero h w (inpaint_region h w mask)) as [|c ic] eqn:Ei;
      [simpl in E; congruence|].
    cbn [knn_fit knn_kneighbors bind] in E.
    rewrite (donors_found kn kn_exact) in E by discriminate.
    discriminate E.
Qed.
End FillProperties.

Lemma inpaint_writes_frontier_only_witness :
  exists filled,
    finish_texture scan_kneighbors 1 4 (row_albedo, row_cnt) = OK filled /\
    shape 1 4 filled.
Proof.
  eexists. split; [reflexivity|].
  exact (proj1 (inpaint_writes_frontier_only scan_kneighbors
                  scan_kneighbors_exact 1 4 row_albedo row_cnt _ eq_refl)).
Defined.

Lemma finish_texture_returns_iff_witness :
  exists filled,
    finish_texture scan_kneighbors 1 4 (row_albedo, row_cnt) = OK filled.
Proof.
  apply (proj1 (finish_texture_returns_iff scan_kneighbors
                  scan_kneighbors_exact 1 4 row_albedo row_cnt)).
  split.
  - exists 0%nat, 0%nat. repeat split; try lia; reflexivity.
  - exists 0%nat, 1%nat. repeat split; try lia; discriminate.
Defined.

(** ** Baking a uniform colour *)

Lemma color_eq_add_scale (a b c : Color) (k k' : Q) :
  color_eq a (color_scale k c) -> color_eq b (color_scale k' c) ->
  color_eq (color_add a b) (color_scale (k + k') c).
Proof.
  destruct a as [[ar ag] ab], b as [[br bg] bb], c as [[cr cg] cb].
  simpl. intros (E1 & E2 & E3) (F1 & F2 & F3).
  rewrite E1, E2, E3, F1, F2, F3. repeat split; ring.
Qed.

Lemma color_eq_div_scale (a c : Color) (k : Q) :
  color_eq a (color_scale k c) -> ~ (k == 0)%Q ->
  color_eq (color_div a k) c.
Proof.
  destruct a as [[ar ag] ab], c as [[cr cg] cb].
  simpl. intros (E1 & E2 & E3) Hk.
  rewrite E1, E2, E3. repeat split; field; assumption.
Qed.

Section UniformColour.
Variable project : Q * Q -> Atlas.
Variables h w : nat.
Variable colour : Color.

(** Every view splats the one colour, weighted by its coverage. *)
Hypothesis project_uniform :
  forall v i j, (i < h)%nat -> (j < w)%nat ->
    color_eq (getc (fst (project v)) i j)
      (color_scale (getq (snd (project v)) i j) colour).

Lemma bake_from_uniform (views : list (Q * Q)) (acc : Atlas) :
  (forall i j, (i < h)%nat -> (j < w)%nat ->
     color_eq (getc (fst acc) i j) (color_scale (getq (snd acc) i j) colour)) ->
  forall i j, (i < h)%nat -> (j < w)%nat ->
    color_eq (getc (fst (bake_from project h w acc views)) i j)
      (color_scale (getq (snd (bake_from project h w acc views)) i j) colour).
Proof.
  revert acc. induction views as [|v views IH]; intros acc Hacc;
    [exact Hacc|].
  unfold bake_from in *. simpl. apply IH.
  intros i j Hi Hj. destruct acc as [albedo cnt].
  destruct (project v) as [ca cc] eqn:Ev. simpl.
  unfold getc, getq, getb. rewrite !grid_get_tabulate_in by assumption.
  fold (getq cnt i j) (getc albedo i j) (getq cc i j) (getc ca i j).
  destruct (Qltb (getq cnt i j) (1 # 10)).
  - apply color_eq_add_scale.
    + apply (Hacc i j Hi Hj).
    + pose proof (project_uniform v i j Hi Hj) as Hp.
      rewrite Ev in Hp. exact Hp.
  - apply (Hacc i j Hi Hj).
Qed.

End UniformColour.


(** ** The first view that covers a texel *)

Lemma Qltb_compat (a b c : Q) : (a == b)%Q -> Qltb a c = Qltb b c.
Proof.
  intros E. unfold Qltb. now rewrite E.
Qed.

Lemma color_eq_refl (a : Color) : color_eq a a.
Proof. destruct a as [[r g] b]. simpl. repeat split; reflexivity. Qed.

Lemma color_eq_div (a b : Color) (k k' : Q) :
  color_eq a b -> (k == k')%Q -> ~ (k' == 0)%Q ->
  color_eq (color_div a k) (color_div b k').
Proof.
  destruct a as [[ar ag] ab], b as [[br bg] bb]. simpl.
  intros (E1 & E2 & E3) Ek Hk.
  rewrite E1, E2, E3, Ek. repeat split; reflexivity.
Qed.

Section FirstCover.
Variable project : Q * Q -> Atlas.
Variables h w : nat.

(** Views that do not see the texel leave it at zero. *)
Lemma bake_unseen (pre : list (Q * Q)) (i j : nat) :
  (i < h)%nat -> (j < w)%nat ->
  (forall u, In u pre ->
     (getq (snd (project u)) i j == 0)%Q /\
     color_eq (getc (fst (project u)) i j) black) ->
  (getq (snd (bake project h w pre)) i j == 0)%Q /\
  color_eq (getc (fst (bake project h w pre)) i j) black.
Proof.
  intros Hi Hj. unfold bake.
  assert (H0 : (getq (snd (atlas_zeros h w)) i j == 0)%Q /\
               color_eq (getc (fst (atlas_zeros h w)) i j) black).
  { unfold atlas_zeros. simpl. unfold getq, getc.
    rewrite !grid_get_tabulate_in by assumption.
    split; [reflexivity|apply color_eq_refl]. }
  revert H0. generalize (atlas_zeros h w) as acc.
  induction pre as [|u pre IH]; intros acc Hacc Hpre; [exact Hacc|].
  unfold bake_from in *. simpl. apply IH.
  - destruct acc as [albedo cnt], (project u) as [ca cc] eqn:Eu.
    destruct (Hpre u (or_introl eq_refl)) as [Hc Ha].
    rewrite Eu in Hc, Ha. simpl in *.
    destruct Hacc as [Hcnt Halb].
    unfold getc, getq, getb. rewrite !grid_get_tabulate_in by assumption.
    fold (getq cnt i j) (getc albedo i j) (getq cc i j) (getc ca i j).
    destruct (Qltb (getq cnt i j) (1 # 10)).
    + split; [rewrite Hcnt, Hc; ring|].
      destruct (getc albedo i j) as [[ar ag] ab],
               (getc ca i j) as [[cr cg] cb].
      simpl in *. destruct Halb as (E1 & E2 & E3), Ha as (F1 & F2 & F3).
      rewrite E1, E2, E3, F1, F2, F3. repeat split; ring.
    + auto.
  - intros u' Hu'. apply Hpre. now right.
Qed.

(** X16: a texel takes the colour of the first view that covers it
    sufficiently.  If the views before [v] leave the texel at zero and
    [v] writes it with a count of at least 0.1, then after any further
    views the normalised texel holds the colour sum of [v] divided by the
    count of [v]. *)
Theorem first_covering_view_decides (pre post : list (Q * Q)) (v : Q * Q)
  (i j : nat) :
  (i < h)%nat -> (j < w)%nat ->
  (forall u, In u pre ->
     (getq (snd (project u)) i j == 0)%Q /\
     color_eq (getc (fst (project u)) i j) black) ->
  (1 # 10 <= getq (snd (project v)) i j)%Q ->
  color_eq
    (getc (normalize h w (fst (bake project h w (pre ++ v :: post)))
             (snd (bake project h w (pre ++ v :: post)))) i j)
    (color_div (getc (fst (project v)) i j) (getq (snd (project v)) i j)).
Proof.
  intros Hi Hj Hpre Hv.
  destruct (bake_unseen pre i j Hi Hj Hpre) as [Hc0 Ha0].
  unfold bake in *. unfold bake_from at 1 2. rewrite fold_left_app. simpl.
  fold (bake_from project h w (atlas_zeros h w) pre).
  set (acc := bake_from project h w (atlas_zeros h w) pre) in *.
  set (acc1 := accumulate h w acc (project v)).
  fold (bake_from project h w acc1 post).
  assert (H1 : (getq (snd acc1) i j == getq (snd (project v)) i j)%Q /\
               color_eq (getc (fst acc1) i j) (getc (fst (project v)) i j)).
  { unfold acc1. destruct acc as [albedo cnt], (project v) as [ca cc].
    simpl in *. unfold getc, getq, getb.
    rewrite !grid_get_tabulate_in by assumption.
    fold (getq cnt i j) (getc albedo i j) (getq cc i j) (getc ca i j).
    rewrite (Qltb_compat _ 0 _ Hc0). change (Qltb 0 (1 # 10)) with true.
    cbv iota. split; [rewrite Hc0; ring|].
    destruct (getc albedo i j) as [[ar ag] ab],
             (getc ca i j) as [[cr cg] cb].
    simpl in *. destruct Ha0 as (E1 & E2 & E3).
    rewrite E1, E2, E3. repeat split; ring. }
  destruct H1 as [Hc1 Ha1].
  assert (Hfrozen : (1 # 10 <= getq (snd acc1) i j)%Q)
    by (rewrite Hc1; exact Hv).
  destruct (bake_from_frozen project h w post acc1 i j Hi Hj Hfrozen)
    as [Ea Ec].
  assert (Hpos : (0 < getq (snd (project v)) i j)%Q)
    by (eapply Qlt_le_trans; [|exact Hv]; reflexivity).
  rewrite normalize_valid.
  - rewrite Ea, Ec. apply color_eq_div; auto.
    intros E. rewrite E in Hpos. discriminate Hpos.
  - apply valid_mask_true. repeat split; auto.
    rewrite Ec, Hc1. exact Hpos.
Qed.
End FirstCover.

Lemma first_covering_view_decides_witness :
  color_eq
    (getc (normalize 1 1
             (fst (bake toy_project 1 1 ([] ++ (0, 0)%Q :: [(0, 45 # 1)%Q])))
             (snd (bake toy_project 1 1 ([] ++ (0, 0)%Q :: [(0, 45 # 1)%Q]))))
       0 0)
    (color_div (getc (fst (toy_project (0, 0)%Q)) 0 0)
       (getq (snd (toy_project (0, 0)%Q)) 0 0)).
Proof.
  apply (first_covering_view_decides toy_project 1 1 []
           [(0, 45 # 1)%Q] (0, 0)%Q 0 0).
  - lia.
  - lia.
  - intros u [].
  - vm_compute. discriminate.
Defined.

(** ** The donor band *)

Lemma erode1_iff (h w : nat) (m : Grid bool) (i j : nat) :
  getb (erode1 h w m) i j = true <->
  (i < h)%nat /\ (j < w)%nat /\
  getb m i j = true /\ above m i j = true /\ getb m (S i) j = true /\
  left_of m i j = true /\ getb m i (S j) = true.
Proof.
  split.
  - intros E. pose proof E as E'. apply getb_tabulate_true in E'.
    apply erode1_true in E. tauto.
  - intros (Hi & Hj & E1 & E2 & E3 & E4 & E5).
    unfold erode1, getb at 1. rewrite grid_get_tabulate_in by assumption.
    now rewrite E1, E2, E3, E4, E5.
Qed.

(** A texel survives [n] erosions exactly when it is [n] steps away from
    the top and left edges and the whole city-block ball of radius [n]
    around it is set. *)
Lemma erosion_ball (h w : nat) (m : Grid bool) (n : nat) :
  bounded h w m ->
  forall i j,
    getb (binary_erosion h w m n) i j = true <->
    (n <= i)%nat /\ (n <= j)%nat /\
    forall k l, manhattan (i, j) (k, l) <= Z.of_nat n -> getb m k l = true.
Proof.
  intros Hb. unfold binary_erosion.
  induction n as [|n IH]; intros i j.
  - simpl. split.
    + intros E. repeat split; try lia. intros k l Hd.
      unfold manhattan in Hd; cbn [fst snd] in Hd.
      assert (k = i) by lia. assert (l = j) by lia. now subst.
    + intros (_ & _ & Hball). apply Hball.
      unfold manhattan; cbn [fst snd]. lia.
  - cbn [Nat.iter nat_rect]. rewrite erode1_iff. split.
    + intros (Hi & Hj & Ec & Eu & Ed & El & Er).
      apply above_true in Eu. destruct Eu as (i' & -> & Eu).
      apply left_of_true in El. destruct El as (j' & -> & El).
      apply IH in Ec, Eu, Ed, El, Er.
      destruct Ec as (_ & _ & Bc), Eu as (Hu1 & _ & Bu), Ed as (_ & _ & Bd),
               El as (_ & Hl2 & Bl), Er as (_ & _ & Br).
      repeat split; try lia.
      intros k l Hd. unfold manhattan in *; cbn [fst snd] in *.
      destruct (Z_le_gt_dec
                  (Z.abs (Z.of_nat (S i') - Z.of_nat k)
                   + Z.abs (Z.of_nat (S j') - Z.of_nat l)) (Z.of_nat n))
        as [Hnear|Hfar].
      * apply Bc. assumption.
      * destruct (lt_eq_lt_dec k (S i')) as [[Hlt|Heq]|Hgt].
        -- apply Bu. lia.
        -- destruct (lt_eq_lt_dec l (S j')) as [[Hlt|Heq']|Hgt].
           ++ apply Bl. lia.
           ++ lia.
           ++ apply Br. lia.
        -- apply Bd. lia.
    + intros (Hi & Hj & Hball).
      assert (Hc : getb m i j = true)
        by (apply Hball; unfold manhattan; cbn [fst snd]; lia).
      destruct (Hb i j Hc) as [Hih Hjw].
      destruct i as [|i']; [lia|]. destruct j as [|j']; [lia|].
      split; [assumption|]. split; [assumption|]. simpl.
      repeat split; apply IH; (split; [lia|]); (split; [lia|]);
        intros k l Hd; apply Hball;
        unfold manhattan in *; cbn [fst snd] in *; lia.
Qed.

(** X17: the donors of the nearest-neighbour search are the valid texels
    near the rim of the valid region.  A texel is a donor exactly when it
    is valid and it is not the case that it lies at least 3 texels from
    the top and left edges with every cell within 3 city-block steps
    valid (cells outside the atlas are not valid). *)
Theorem donor_band_is_the_rim (h w : nat) (cnt : Grid Q) (i j : nat) :
  getb (search_region h w (valid_mask h w cnt)) i j = true <->
  getb (valid_mask h w cnt) i j = true /\
  ~ ((3 <= i)%nat /\ (3 <= j)%nat /\
     forall k l, manhattan (i, j) (k, l) <= 3 ->
                 (k < h)%nat /\ (l < w)%nat /\ (0 < getq cnt k l)%Q).
Proof.
  pose proof (erosion_ball h w (valid_mask h w cnt) 3
                (bounded_tabulate _ _ _) i j) as Hero.
  split.
  - intros E. pose proof (search_region_true _ _ _ _ _ E) as (Hi & Hj & Hv).
    split; [assumption|]. intros (H3i & H3j & Hball).
    assert (Her : getb (binary_erosion h w (valid_mask h w cnt) 3) i j
                  = true).
    { apply Hero. repeat split; auto.
      intros k l Hd. apply valid_mask_true. apply Hball. exact Hd. }
    unfold search_region, getb at 1 in E.
    rewrite grid_get_tabulate_in in E by assumption.
    fold (getb (binary_erosion h w (valid_mask h w cnt) 3) i j) in E.
    rewrite Her in E. discriminate E.
  - intros [Hv Hnot].
    pose proof (proj1 (valid_mask_true h w cnt i j) Hv) as (Hi & Hj & _).
    unfold search_region, getb at 1.
    rewrite grid_get_tabulate_in by assumption.
    fold (getb (binary_erosion h w (valid_mask h w cnt) 3) i j).
    destruct (getb (binary_erosion h w (valid_mask h w cnt) 3) i j) eqn:Her;
      [|exact Hv].
    exfalso. apply Hnot.
    apply (erosion_ball h w (valid_mask h w cnt) 3
             (bounded_tabulate _ _ _) i j) in Her.
    destruct Her as (H3i & H3j & Hball).
    split; [assumption|]. split; [assumption|].
    intros k l Hd. apply valid_mask_true. apply Hball. exact Hd.
Qed.

(** * Further properties of loading, training runs and the viewer *)

Lemma mapM_nth_error {A C : Type} (f : A -> res C) (xs : list A)
  (ys : list C) (n : nat) (x : A) :
  mapM f xs = OK ys -> nth_error xs n = Some x ->
  exists y, nth_error ys n = Some y /\ f x = OK y.
Proof.
  revert ys n. induction xs as [|x0 xs IH]; simpl; intros ys n E Hn.
  - destruct n; discriminate.
  - inv_bind_as E y0 E0. inv_bind_as E ys0 E1. inversion E; subst.
    destruct n as [|n]; simpl in *.
    + inversion Hn; subst. eauto.
    + eapply IH; eauto.
Qed.

Section SessionProperties.
Context {B : Backend}.

(** X18: [load_multi_image] loads every tile the way [load_input] loads
    a single image.  When it returns, its [i]-th image and mask are the
    input image and mask that [load_input] produces from tile [i]
    alone. *)
Theorem tiles_load_like_inputs (g : GUI) (img : Image)
  (imgs masks : list FImage) (i : nat) :
  load_multi_image g img = OK (imgs, masks) -> (i < 16)%nat ->
  exists gi,
    load_input g (tile img i) None = OK gi /\
    input_img gi = nth_error imgs i /\ input_mask gi = nth_error masks i /\
    prompt gi = prompt g.
Proof.
  unfold load_multi_image. intros E Hi.
  inv_bind_as E fs Ef. inv_bind_as E pairs Ep. inversion E; subst; clear E.
  assert (Ht : nth_error (map (tile img) (seq 0 16)) i = Some (tile img i)).
  { rewrite nth_error_map, nth_error_seq.
    destruct (Nat.ltb_spec i 16); [reflexivity|lia]. }
  destruct (mapM_nth_error _ _ _ _ _ Ef Ht) as (f & Hf & Ef').
  destruct (mapM_nth_error _ _ _ _ _ Ep Hf) as ([rgb mask] & Hp & Ep').
  unfold load_input. rewrite Ef'. simpl. rewrite Ep'. simpl.
  eexists. split; [reflexivity|]. simpl.
  rewrite !nth_error_map, Hp. auto.
Qed.

Variable prune : Gaussians -> Q -> Q -> Q -> Gaussians.

Lemma train_steps_loop (ks : list nat) (draws : nat -> nat -> nat -> Draw)
  (g g' : GUI) :
  foldM (fun g i => train_step g (draws i)) ks g = OK g' ->
  g' = set_progress g
         (step g + Z.of_nat (List.length ks) * Z.max 0 (train_steps g))
         (gaussians g').
Proof.
  revert g. induction ks as [|k ks IH]; intros g E.
  - simpl in E. inversion E; subst. simpl. rewrite Z.add_0_r.
    now destruct g'.
  - cbn [foldM] in E. inv_bind_as E g1 E1. unfold train_step in E1.
    apply train_loop_frame in E1. rewrite length_seq in E1.
    apply IH in E. rewrite E at 1. rewrite E1 at 1 2 3.
    change (List.length (k :: ks)) with (S (List.length ks)).
    rewrite Nat2Z.inj_succ.
    unfold set_progress; cbn [opt W H cam gaussians guidance_sd
      guidance_zero123 enable_sd enable_zero123 input_img input_mask
      input_img_torch input_mask_torch prompt negative_prompt step
      train_steps fixed_cam cameras multiImagesTorch multiMasksTorch].
    f_equal. lia.
Qed.


Variable render_view : Gaussians -> Cam -> Q -> Mode -> Tensor.
Variable resample : Tensor -> Z -> Z -> Tensor.
Variable view_pose : Pose.

Lemma clamp01_range (x : Tensor) : unit_range (map clamp01 x).
Proof.
  apply Forall_forall. intros v Hv. apply in_map_iff in Hv.
  destruct Hv as (u & <- & _). unfold clamp01.
  destruct (Qltb u 0) eqn:E0; [split; discriminate|].
  destruct (Qltb 1 u) eqn:E1; [split; discriminate|].
  qltb_props. split; assumption.
Qed.

Lemma overlay_range (ratio : Q) (x y z : Tensor) :
  (0 <= ratio <= 1)%Q -> unit_range x -> unit_range y ->
  overlay ratio x y = OK z -> unit_range z.
Proof.
  intros Hr Hx Hy. unfold overlay.
  destruct (Nat.eqb _ _); [|discriminate]. intros E. inversion E; subst z.
  clear E. revert y Hy.
  induction Hx as [|a x Ha Hx IH]; intros y Hy; [constructor|].
  destruct Hy as [|b y Hb Hy]; [constructor|]. simpl.
  constructor; [|apply IH; assumption]. simpl. split; nra.
Qed.

(** X20: [test_step] returns the viewer untouched when no redraw is
    pending; otherwise it clears the flag, and the buffer it stores
    holds values between 0 and 1 only, whatever the render returned, as
    long as the overlay is off, or there is no input image, or the
    overlay ratio and the input image lie between 0 and 1. *)
Theorem test_step_buffer_in_range (g : GUI) (v v' : Viewer) :
  test_step render_view resample view_pose g v = OK v' ->
  (need_update v = false -> v' = v) /\
  need_update v' = false /\
  (need_update v = true ->
   (overlay_input_img v = false \/ input_img g = None \/
    ((0 <= overlay_input_img_ratio v <= 1)%Q /\
     exists im, input_img g = Some im /\ unit_range (concat (concat im)))) ->
   unit_range (buffer_image v')).
Proof.
  unfold test_step. intros E.
  destruct (need_update v) eqn:En; simpl in E.
  - inv_bind_as E buf0 E0. inv_bind_as E buf1 E1.
    inversion E; subst v'; clear E. simpl.
    split; [discriminate|]. split; [reflexivity|]. intros _ Hover.
    pose proof (clamp01_range (resample buf0 (H g) (W g))) as Hclamp.
    destruct (overlay_input_img v).
    + destruct (input_img g) as [im|] eqn:Ei.
      * destruct Hover as [Hf|[Hf|(Hr & im' & Him & Hrange)]];
          try discriminate.
        inversion Him; subst im'.
        exact (overlay_range _ _ _ _ Hr Hclamp Hrange E1).
      * inversion E1; subst. exact Hclamp.
    + inversion E1; subst. exact Hclamp.
  - inversion E; subst. split; [reflexivity|]. split; [assumption|].
    discriminate.
Qed.
End SessionProperties.

Lemma tiles_load_like_inputs_witness :
  exists (imgs masks : list FImage) (gi : @GUI toy),
    load_multi_image toy_init narrow_image = OK (imgs, masks) /\
    load_input toy_init (tile narrow_image 15) None = OK gi /\
    input_img gi = nth_error imgs 15.
Proof.
  destruct (load_multi_image toy_init narrow_image) as [[imgs masks]|e] eqn:E;
    [|vm_compute in E; discriminate E].
  destruct (@tiles_load_like_inputs toy toy_init narrow_image imgs masks 15 E)
    as (gi & Hl & Hi & _); [lia|].
  exists imgs, masks, gi. auto.
Defined.


Lemma test_step_buffer_in_range_witness :
  exists v' : Viewer,
    @test_step toy toy_view (fun x _ _ => x) (0, 0, 2)%Q toy_trained
      toy_viewer = OK v' /\
    need_update v' = false /\ unit_range (buffer_image v').
Proof.
  eexists. split; [reflexivity|].
  destruct (@test_step_buffer_in_range toy toy_view (fun x _ _ => x)
              (0, 0, 2)%Q toy_trained toy_viewer _ eq_refl)
    as (_ & Hn & Hr).
  split; [exact Hn|]. apply Hr; [reflexivity|]. left. reflexivity.
Defined.

(** * Steps after the preparation *)

Section PreparedSteps.
Context {B : Backend}.

Lemma known_view_raises_shape (g : GUI) (G : Gaussians) (r : Q)
  (acc : LossOut) (e : exn) :
  fixed_cam g <> None ->
  (input_img_torch g <> None -> input_mask_torch g <> None) ->
  known_view g G r acc = Raise e -> e = RuntimeError.
Proof.
  unfold known_view. intros Hc Hm E.
  destruct (input_img_torch g) as [ref|]; [|discriminate].
  destruct (fixed_cam g) as [c|]; [|congruence].
  destruct (input_mask_torch g) as [ref_mask|];
    [|exfalso; apply Hm; congruence].
  destruct (mse_loss (image (render G c false)) ref) as [l|e1] eqn:E1;
    simpl in E.
  - destruct (mse_loss (alpha (render G c false)) ref_mask) as [lm|e2] eqn:E2;
      simpl in E; [discriminate|].
    inversion E; subst. eapply mse_loss_raises; eauto.
  - inversion E; subst. eapply mse_loss_raises; eauto.
Qed.

Lemma guidance_loaded_total (g : GUI) (r : Q) (b : Batch) (loss : Q) :
  (enable_sd g = true -> exists m, guidance_sd g = Some m) ->
  (enable_zero123 g = true -> exists m, guidance_zero123 g = Some m) ->
  exists l, guidance g r b loss = OK l.
Proof.
  intros Hsd Hz. unfold guidance, sd_term, zero123_term.
  destruct (enable_sd g).
  - destruct (Hsd eq_refl) as [m ->]. simpl.
    destruct (enable_zero123 g); [|eauto].
    destruct (Hz eq_refl) as [z ->]. eauto.
  - simpl. destruct (enable_zero123 g); [|eauto].
    destruct (Hz eq_refl) as [z ->]. eauto.
Qed.

Lemma prepare_train_tensors (g g' : GUI) (azs : list Q) (poses : list Pose)
  (img : Image) :
  prepare_train g azs poses img = OK g' ->
  (input_img_torch g <> None -> input_mask_torch g <> None) ->
  fixed_cam g' <> None /\
  (input_img_torch g' <> None -> input_mask_torch g' <> None).
Proof.
  unfold prepare_train. intros E Hg.
  inv_bind_as E mm Eload. destruct mm as [multiImages multiMasks].
  inv_bind_as E imgsT Ei. inv_bind_as E masksT Em.
  inv_bind_as E it Et. destruct it as [img_t mask_t].
  inv_bind_as E sd' Esd. inv_bind_as E z123' Ez.
  inversion E; subst g'; clear E.
  cbn [fixed_cam input_img_torch input_mask_torch].
  split; [discriminate|].
  destruct (input_img g); [destruct (input_mask g)|];
    inversion Et; subst; auto; discriminate.
Qed.

(** X21: outside the densification window a step that completes only
    optimises: the cloud it leaves is the optimiser's update of the
    cloud it found, with no statistics recorded, nothing densified or
    pruned and no opacity reset. *)
Theorem no_densification_outside_window (g g' : GUI) (draws : nat -> Draw)
  (loss : Q) :
  train_iter g draws = OK (g', loss) ->
  in_density_window (opt g) (step g + 1) = false ->
  gaussians g'
  = optimize (update_learning_rate (gaussians g) (step g + 1)) loss.
Proof.
  unfold train_iter. intros E Hwin.
  inv_bind_as E r Er. inv_bind_as E lb Eloss. destruct lb as [l b].
  inv_bind_as E G Ed. inversion E; subst; clear E.
  unfold densify in Ed. rewrite Hwin in Ed. now inversion Ed.
Qed.

(** X22: once [prepare_train] has returned, on an object whose input
    image tensor does not come without its mask tensor, a training step
    never fails for a missing camera, mask or guidance model: a step that
    fails raises a division by zero, an index error or a runtime
    error. *)
Theorem prepared_step_exceptions (g g' : GUI) (azs : list Q)
  (poses : list Pose) (img : Image) (draws : nat -> Draw) (e : exn) :
  prepare_train g azs poses img = OK g' ->
  (input_img_torch g <> None -> input_mask_torch g <> None) ->
  train_iter g' draws = Raise e ->
  e = ZeroDivisionError \/ e = IndexError \/ e = RuntimeError.
Proof.
  intros Eprep Hg E.
  destruct (prepare_train_tensors _ _ _ _ _ Eprep Hg) as [Hcam Hmask].
  apply prepare_train_OK in Eprep.
  destruct Eprep as (_ & _ & _ & _ & _ & _ & Hsd & Hz).
  unfold train_iter in E.
  destruct (step_ratio (step g' + 1) (iters (opt g'))) as [r|e0] eqn:Er.
  2:{ simpl in E. inversion E; subst. left.
      unfold step_ratio in Er. destruct (_ =? 0); congruence. }
  simpl in E. unfold compose_loss in E.
  set (G := update_learning_rate (gaussians g') (step g' + 1)) in *.
  destruct (known_view g' G r (0%Q, None)) as [acc0|e1] eqn:Ek; simpl in E.
  2:{ inversion E; subst. right. right.
      eapply known_view_raises_shape; eauto. }
  destruct (multi_view g' G r acc0) as [acc|e2] eqn:Em; simpl in E.
  2:{ inversion E; subst. right. left. unfold multi_view in Em.
      eapply (foldM_raise_only IndexError); [|exact Em].
      intros a i e'. apply multi_view_body_raises. }
  destruct (novel_batch g' G r draws (snd acc)) as [b|e3] eqn:Eb; simpl in E.
  2:{ inversion E; subst. apply novel_batch_raises in Eb. tauto. }
  destruct (guidance_loaded_total g' r b (fst acc) Hsd Hz) as [loss Eg].
  rewrite Eg in E. simpl in E.
  apply novel_batch_last in Eb.
  destruct Eb as (n & ver & hor & c & inv & _ & _ & Hout).
  rewrite Hout in E.
  destruct (densify _ _ _ _) as [G'|e5] eqn:Ed; simpl in E; [discriminate|].
  inversion E; subst. apply densify_raises in Ed. tauto.
Qed.
End PreparedSteps.

Lemma no_densification_outside_window_witness :
  exists (g' : @GUI toy) (loss : Q),
    train_iter (set_progress toy_trained 10 (gaussians toy_trained))
      toy_draws = OK (g', loss) /\
    gaussians g'
    = optimize (update_learning_rate (gaussians toy_trained) (10 + 1)) loss.
Proof.
  destruct (train_iter (set_progress toy_trained 10 (gaussians toy_trained))
              toy_draws) as [[g' loss]|e] eqn:E;
    [|vm_compute in E; discriminate E].
  exists g', loss. split; [reflexivity|].
  exact (@no_densification_outside_window toy _ g' toy_draws loss E eq_refl).
Defined.

Lemma prepared_step_exceptions_witness :
  IndexError = ZeroDivisionError \/ IndexError = IndexError \/
  IndexError = RuntimeError.
Proof.
  assert (Hrun : bind (prepare_train toy_init (repeat 0%Q 3) toy_poses
                         narrow_image)
                   (fun g' => train_iter g' toy_draws) = Raise IndexError)
    by (vm_compute; reflexivity).
  destruct (prepare_train toy_init (repeat 0%Q 3) toy_poses narrow_image)
    as [g'|e] eqn:E; [|vm_compute in E; discriminate E].
  simpl in Hrun.
  apply (@prepared_step_exceptions toy toy_init g' (repeat 0%Q 3) toy_poses
           narrow_image toy_draws IndexError E); [|exact Hrun].
  intros Hc. exfalso. apply Hc. reflexivity.
Defined.
